(** * StateManager: the store registry of xpresscue-connect

    A shallow embedding of [src/state/state.manager.ts].  The class
    [StateManager] owns a JavaScript [Map<string, Store>] and a
    [Subject<void>] called [destroy$]; it routes the events of the player
    client to the stores and exposes [refresh], [reset], [getStore],
    [hasStore], [get], [select] and [destroy].

    Layout of the development:
    - [JsValue], [Exn]: the JavaScript values and thrown values involved;
    - [JsMap]: a [Map] with string keys, in insertion order;
    - the monad [M]: state passing, a log of effects, and exceptions;
    - [Store]: the contract of a store (its class lives in [state.utils],
      which this development does not have; it is modelled from the
      specification);
    - the [StateManager] methods, one definition per method of the class;
    - the properties of the registry. *)

From Stdlib Require Import String List ZArith Bool Arith Lia.
Import ListNotations.
Local Open Scope string_scope.
Local Open Scope list_scope.

Set Implicit Arguments.

(* ===================================================================== *)
(** ** JavaScript values *)
(* ===================================================================== *)

(** The values a store caches: numbers, strings and composite objects
    (an object is the list of its own properties). *)
#[local] Set Warnings "-register-all".
Inductive JsValue : Type :=
| JUndefined
| JNum (n : Z)
| JStr (s : string)
| JObj (props : list (string * JsValue)).
#[local] Set Warnings "+register-all".

(** Property access [v[key]]: [undefined] when the property is absent or
    [v] is not an object. *)
Fixpoint lookup_prop (key : string) (props : list (string * JsValue)) : JsValue :=
  match props with
  | [] => JUndefined
  | (k, v) :: rest => if String.eqb k key then v else lookup_prop key rest
  end.

Definition prop (key : string) (v : JsValue) : JsValue :=
  match v with
  | JObj props => lookup_prop key props
  | _ => JUndefined
  end.

(** A value, or one of its sub-fields: what [get(key?)] and
    [select(key?)] narrow a store to. *)
Definition project (key : option string) (v : JsValue) : JsValue :=
  match key with
  | None => v
  | Some k => prop k v
  end.

(** What a [throw] or a rejected promise carries.  [Error msg] is the
    value built by [Error(`...`)] in [getStore]; [RemoteFailure] stands
    for whatever a store's own [refresh()] rejects with. *)
Inductive Exn : Type :=
| Error (message : string)
| RemoteFailure (reason : string).

(* ===================================================================== *)
(** ** [Map<string, V>] in insertion order *)
(* ===================================================================== *)

Module JsMap.

Section Defs.
Context {V : Type}.

(** Entries in insertion order.  A JavaScript [Map] never holds a key
    twice: [set] on a present key overwrites the value where it stands. *)
Definition t : Type := list (string * V).

Definition empty : t := [].

Fixpoint get (k : string) (m : t) : option V :=
  match m with
  | [] => None
  | (k', v) :: rest => if String.eqb k' k then Some v else get k rest
  end.

Definition has (k : string) (m : t) : bool :=
  match get k m with
  | Some _ => true
  | None => false
  end.

Fixpoint set (k : string) (v : V) (m : t) : t :=
  match m with
  | [] => [(k, v)]
  | (k', v') :: rest =>
      if String.eqb k' k then (k', v) :: rest else (k', v') :: set k v rest
  end.

Definition keys (m : t) : list string := map fst m.

Definition values (m : t) : list V := map snd m.

(** No key occurs twice (decidable, so that it can be evaluated). *)
Fixpoint distinct (ks : list string) : bool :=
  match ks with
  | [] => true
  | k :: rest => negb (existsb (String.eqb k) rest) && distinct rest
  end.

End Defs.

Arguments t : clear implicits.

End JsMap.

(* ===================================================================== *)
(** ** Computations: state, effects and exceptions *)
(* ===================================================================== *)

(** A method of an object whose state has type [S] is a function from
    the state before the call to an [Outcome]: the value returned or the
    exception thrown (for an [async] method: the value the promise
    resolves to or the reason it rejects with), the state after the
    call, and the effects performed, oldest first.  An exception does not
    undo the mutations made before it. *)

Section Computation.

Variables E S : Type.

Record Outcome (A : Type) : Type := mkOutcome {
  result : Exn + A;
  final : S;
  trace : list E
}.

Definition M (A : Type) : Type := S -> Outcome A.

Definition ret {A} (a : A) : M A :=
  fun s => mkOutcome (inr a) s [].

Definition throw {A} (e : Exn) : M A :=
  fun s => mkOutcome (inl e) s [].

Definition bind {A B} (c : M A) (k : A -> M B) : M B :=
  fun s =>
    let o := c s in
    match result o with
    | inl e => mkOutcome (inl e) (final o) (trace o)
    | inr a =>
        let o' := k a (final o) in
        mkOutcome (result o') (final o') (trace o ++ trace o')
    end.

Definition tell (es : list E) : M unit :=
  fun s => mkOutcome (inr tt) s es.

Definition read : M S :=
  fun s => mkOutcome (inr s) s [].

Definition write (s : S) : M unit :=
  fun _ => mkOutcome (inr tt) s [].

(** A pure computation that may throw. *)
Definition lift {A} (r : Exn + A) : M A :=
  match r with
  | inl e => throw e
  | inr a => ret a
  end.

End Computation.

Arguments ret {E S A} a.
Arguments throw {E S A} e.
Arguments bind {E S A B} c k.
Arguments tell {E S} es.
Arguments read {E S}.
Arguments write {E S} s.
Arguments lift {E S A} r.
Arguments result {E S A} o.
Arguments final {E S A} o.
Arguments trace {E S A} o.

Declare Scope js_scope.
Delimit Scope js_scope with js.
Notation "x <- c ;; k" := (bind c (fun x => k))
  (at level 100, c at next level, right associativity) : js_scope.
Notation "c ;; k" := (bind c (fun _ => k))
  (at level 100, right associativity) : js_scope.
Local Open Scope js_scope.

(* ===================================================================== *)
(** ** The store contract *)
(* ===================================================================== *)

(** What the remote answers to the pull a store's [refresh()] makes: the
    authoritative value, or a failure. *)
Inductive PullResult : Type :=
| Pulled (v : JsValue)
| Rejected (e : Exn).

(** The methods of a store that mutate it. *)
Inductive Method : Type :=
| MRefresh
| MReset
| MSet (v : JsValue).

(** What a store does that is visible from outside it. *)
Inductive StoreEffect : Type :=
| Called (m : Method)          (* one of its methods is invoked *)
| Request                      (* it asks the remote for its state *)
| Response (r : PullResult)    (* the answer of the remote arrives *)
| Emit (v : JsValue).          (* its change channel publishes [v] *)

Module Store.

(** Modelled from the spec: the class [Store] of [state.utils], of which
    only the import is in the sources.  The specification gives a store
    a current [value], a store-defined default, a change-notification
    channel, and five capabilities: [set(v)] overwrites the value;
    [reset()] synchronously restores the default, with no network
    interaction; [refresh()] pulls the current state from the remote
    source and updates the value, or fails; [get(key?)] reads the value
    or one of its sub-fields; [select(key?)] subscribes to the changes.
    A store has no capability that closes its channel. *)
Record t : Type := mk {
  default : JsValue;
  value : JsValue
}.

Definition Task (A : Type) : Type := M StoreEffect t A.

(** Modelled from the spec: the constructor of a store, which leaves it
    holding its default. *)
Definition create (init : JsValue) : t := mk init init.

(** Modelled from the spec: the one way a store changes, shared by
    [set], [reset] and [refresh]: the value is overwritten and the
    change channel notifies its subscribers. *)
Definition publish (v : JsValue) : Task unit :=
  s <- read ;;
  write (mk (default s) v) ;;
  tell [Emit v].

(** Modelled from the spec: [Store.set(value)], the synchronous
    overwrite the manager uses for the events that carry a state. *)
Definition set (v : JsValue) : Task unit :=
  tell [Called (MSet v)] ;;
  publish v.

(** Modelled from the spec: [Store.reset()], the synchronous revert to
    the store-defined default, with no network interaction. *)
Definition reset : Task unit :=
  tell [Called MReset] ;;
  s <- read ;;
  publish (default s).

(** Modelled from the spec: [Store.refresh()] up to its suspension; the
    pull is sent to the remote. *)
Definition refresh_begin : Task unit :=
  tell [Called MRefresh; Request].

(** Modelled from the spec: [Store.refresh()] from the moment the remote
    has answered; the value pulled becomes the value of the store, or
    the failure of the pull is the failure of [refresh()]. *)
Definition refresh_settle (answer : PullResult) : Task unit :=
  tell [Response answer] ;;
  match answer with
  | Pulled v => publish v
  | Rejected e => throw e
  end.

(** Modelled from the spec: [Store.refresh()] with its pull answered at
    once. *)
Definition refresh (answer : PullResult) : Task unit :=
  refresh_begin ;;
  refresh_settle answer.

(** Modelled from the spec: [Store.get(key?)], the current value or the
    named sub-field of a composite value. *)
Definition get (key : option string) (s : t) : JsValue :=
  project key (value s).

End Store.

(* ===================================================================== *)
(** ** Observables *)
(* ===================================================================== *)

(** Where the items of an observable come from: an event of the player
    client ([client.fromEvent(name)]) or the change channel of a store,
    optionally narrowed to one sub-field. *)
Inductive Source : Type :=
| FromEvent (event : string)
| Changes (store : string) (key : option string).

(** The two operators the manager puts in a pipe: [takeUntil(this.destroy$)]
    and [this.filterHasStore()]. *)
Inductive Operator : Type :=
| TakeUntilDestroy
| FilterHasStore.

Record Observable : Type := mkObservable {
  source : Source;
  pipe : list Operator
}.

(** Modelled from the spec: [Store.select(key?)] of [state.utils], the
    subscription to the future changes of the store, optionally narrowed
    to one sub-field.  [self] identifies the store object: the key it is
    registered under.  The store is built from the client alone, so no
    operator of the manager is in the pipe. *)
Definition Store_select (self : string) (key : option string) : Observable :=
  mkObservable (Changes self key) [].

(* ===================================================================== *)
(** ** The models of [player.models] *)
(* ===================================================================== *)

Module StateUpdate.
Record t : Type := mk { name : string; state : JsValue }.
End StateUpdate.

Module EntityEvent.
Record t : Type := mk { name : string }.
End EntityEvent.

(** Modelled from the spec: a store type, [Type<Store>].  Every store
    type exposes, statically, its canonical registration name (the
    [STORE_CONFIG] descriptor); [new type(client)] yields a store that
    holds the built-in default of the type. *)
Record StoreType : Type := mkStoreType {
  config_name : string;
  initialState : JsValue
}.

(** What the player client emits, by event name. *)
Inductive ClientEvent : Type :=
| Connect                                (* 'connect' *)
| EventState (evt : StateUpdate.t)       (* 'event:state' *)
| EventReset (evt : StateUpdate.t)       (* 'event:reset' *)
| EventEntity (evt : EntityEvent.t).     (* 'event:entity' *)

Definition eventName (e : ClientEvent) : string :=
  match e with
  | Connect => "connect"
  | EventState _ => "event:state"
  | EventReset _ => "event:reset"
  | EventEntity _ => "event:entity"
  end.

(** [evt.name], where the payload has one. *)
Definition evtName (e : ClientEvent) : option string :=
  match e with
  | Connect => None
  | EventState evt | EventReset evt => Some (StateUpdate.name evt)
  | EventEntity evt => Some (EntityEvent.name evt)
  end.

(** The remote side of the player client, as the stores see it: what it
    answers to the pull of the store registered under a name. *)
Definition Remote : Type := string -> PullResult.

(* ===================================================================== *)
(** ** The state of a [StateManager] *)
(* ===================================================================== *)

(** An RxJS [Subject<void>]: whether it has emitted, and whether it has
    completed.  [next()] on a completed subject does nothing, and so does
    a second [complete()]. *)
Record Subject : Type := mkSubject {
  hasEmitted : bool;
  isStopped : bool
}.

(** The private fields [stores] and [destroy$].  The third field,
    [client], is where the events and the answers to the pulls come
    from: the events are the argument of [emit] below, the answers are
    the [Remote] the asynchronous methods take. *)
Record StateManager : Type := mkStateManager {
  stores : JsMap.t Store.t;
  destroy_ : Subject
}.

(** What a call on the manager does that is visible from outside it. *)
Inductive Effect : Type :=
| At (store : string) (e : StoreEffect)  (* an effect of the store under this key *)
| Fired                                  (* [destroy$] emits to its observers *)
| Closed                                 (* [destroy$] completes *)
| Unhandled (e : Exn).                   (* a promise nobody awaits rejects *)

Definition Call (A : Type) : Type := M Effect StateManager A.

(** Run a method of the store registered under [k]: the store object is
    mutated where it stands in the map.  Every caller has made sure the
    map has [k]; the other case is there for totality. *)
Definition onStore (k : string) (body : Store.Task unit) : Call unit :=
  fun m =>
    match JsMap.get k (stores m) with
    | Some s =>
        let o := body s in
        mkOutcome (result o)
          (mkStateManager (JsMap.set k (final o) (stores m)) (destroy_ m))
          (map (At k) (trace o))
    | None => mkOutcome (inr tt) m []
    end.

(** [for (const store of this.stores.values()) body(store)]: the stores
    are visited in insertion order, each one mutated where it stands; an
    exception leaves the loop. *)
Fixpoint forValues (body : string -> Store.Task unit)
    (entries : JsMap.t Store.t) : Outcome Effect (JsMap.t Store.t) unit :=
  match entries with
  | [] => mkOutcome (inr tt) [] []
  | (k, s) :: rest =>
      let o := body k s in
      match result o with
      | inl e => mkOutcome (inl e) ((k, final o) :: rest) (map (At k) (trace o))
      | inr _ =>
          let o' := forValues body rest in
          mkOutcome (result o') ((k, final o) :: final o')
            (map (At k) (trace o) ++ trace o')
      end
  end.

Definition onStores {A} (c : M Effect (JsMap.t Store.t) A) : Call A :=
  fun m =>
    let o := c (stores m) in
    mkOutcome (result o) (mkStateManager (final o) (destroy_ m)) (trace o).

Definition onDestroy {A} (c : M Effect Subject A) : Call A :=
  fun m =>
    let o := c (destroy_ m) in
    mkOutcome (result o) (mkStateManager (stores m) (final o)) (trace o).

(** [Subject.next()] and [Subject.complete()] of RxJS: a subject that
    has completed is stopped; [next()] on it notifies nobody and throws
    nothing, and so does a second [complete()]. *)
Definition Subject_next : M Effect Subject unit :=
  s <- read ;;
  if isStopped s then ret tt
  else (write (mkSubject true (isStopped s)) ;; tell [Fired]).

Definition Subject_complete : M Effect Subject unit :=
  s <- read ;;
  if isStopped s then ret tt
  else (write (mkSubject (hasEmitted s) true) ;; tell [Closed]).

(* ===================================================================== *)
(** ** The methods of [StateManager] *)
(* ===================================================================== *)

(** [string | Type<S>]: a store is named by its name or by its type. *)
Inductive Ident : Type :=
| ByName (name : string)
| ByType (type : StoreType).

(** [(type as any)[STORE_CONFIG].name] *)
Definition getStoreNameByType (type : StoreType) : string :=
  config_name type.

(** The first statement of [getStore] and of [hasStore]:
    [if (typeof nameOrType !== 'string') nameOrType = this.getStoreNameByType(nameOrType)]. *)
Definition resolve (nameOrType : Ident) : string :=
  match nameOrType with
  | ByName name => name
  | ByType type => getStoreNameByType type
  end.

(** [hasStore(nameOrType)]: whether the store exists. *)
Definition hasStore (nameOrType : Ident) (m : StateManager) : bool :=
  JsMap.has (resolve nameOrType) (stores m).

(** The message of the error [getStore] throws. *)
Definition doesNotExist (name : string) : Exn :=
  Error ("Store '" ++ name ++ "' does not exist!")%string.

(** [getStore(nameOrType)]: the last case is [this.stores.get(name)] answering
    [undefined] for a name [has] accepted, which a [Map] never does
    (lemma [getStore_found]). *)
Definition getStore (nameOrType : Ident) (m : StateManager) : Exn + Store.t :=
  let name := resolve nameOrType in
  if negb (hasStore (ByName name) m) then inl (doesNotExist name)
  else
    match JsMap.get name (stores m) with
    | Some store => inr store
    | None => inl (Error "undefined")
    end.

(** [get(nameOrType, key?)]: the current value of a store, or of one of
    its keys. *)
Definition get (nameOrType : Ident) (key : option string) (m : StateManager)
    : Exn + JsValue :=
  match getStore nameOrType m with
  | inl e => inl e
  | inr store => inr (Store.get key store)
  end.

(** [select(nameOrType, key?)]: the stream of value changes of a store,
    or of one of its keys.  It is [store.select(key)] as the store
    returns it: the manager adds no operator. *)
Definition select (nameOrType : Ident) (key : option string) (m : StateManager)
    : Exn + Observable :=
  match getStore nameOrType m with
  | inl e => inl e
  | inr _ => inr (Store_select (resolve nameOrType) key)
  end.

(** A synchronous read of the manager that may throw. *)
Definition attempt {A} (f : StateManager -> Exn + A) : Call A :=
  fun m => lift (f m) m.

(** [refresh(storeName?)], every pull answered by [remote] before
    anything else happens.  The test [if (storeName)] is JavaScript
    truthiness: it fails for an absent argument and for the empty
    string alike. *)
Definition refresh (remote : Remote) (storeName : option string) : Call unit :=
  let all := onStores (forValues (fun k => Store.refresh (remote k))) in
  match storeName with
  | Some name =>
      if negb (name =? "")%string then
        (_ <- attempt (getStore (ByName name)) ;;
         onStore name (Store.refresh (remote name)))
      else all
  | None => all
  end.

(** [reset()]: force all stores to reset to their initial value. *)
Definition reset : Call unit :=
  onStores (forValues (fun _ => Store.reset)).

(** [destroy()]: [this.reset(); this.destroy$.next();
    this.destroy$.complete()]. *)
Definition destroy : Call unit :=
  reset ;;
  onDestroy Subject_next ;;
  onDestroy Subject_complete.

(** The private [set(storeName, value)]: [store.set(value)] when the map
    has the name, nothing otherwise. *)
Definition set (storeName : string) (value : JsValue) : Call unit :=
  m <- read ;;
  if JsMap.has storeName (stores m) then onStore storeName (Store.set value)
  else ret tt.

(** [initialize(types)]: one instance per type, saved under the name of
    its type; a name met again overwrites the earlier instance. *)
Fixpoint instantiate (types : list StoreType) (acc : JsMap.t Store.t)
    : JsMap.t Store.t :=
  match types with
  | [] => acc
  | type :: rest =>
      instantiate rest
        (JsMap.set (getStoreNameByType type)
           (Store.create (initialState type)) acc)
  end.

(** [initialize] ends with [this.subscribeEvents()], whose four
    subscriptions are listed by [subscribeEvents] below. *)
Definition initialize (types : list StoreType) : Call unit :=
  m <- read ;;
  write (mkStateManager (instantiate types (stores m)) (destroy_ m)).

(** [new StateManager(client)].  The list of store types is the constant
    [ALL_STORES] of [./stores]; it is a parameter here. *)
Definition constructor (types : list StoreType) : StateManager :=
  final (initialize types
           (mkStateManager JsMap.empty (mkSubject false false))).

(* ===================================================================== *)
(** ** Event routing *)
(* ===================================================================== *)

(** A callback that starts an [async] method and drops its promise: the
    caller sees no exception; a rejection stays unhandled. *)
Definition detach (c : Call unit) : Call unit :=
  fun m =>
    let o := c m in
    mkOutcome (inr tt) (final o)
      (trace o ++ match result o with
                  | inl e => [Unhandled e]
                  | inr _ => []
                  end).

(** [evt.state], [undefined] where the payload has none. *)
Definition evtState (e : ClientEvent) : JsValue :=
  match e with
  | EventState evt | EventReset evt => StateUpdate.state evt
  | _ => JUndefined
  end.

Record Subscription : Type := mkSubscription {
  observable : Observable;
  next : Remote -> ClientEvent -> Call unit
}.

(** [subscribeEvents()]: the four subscriptions the constructor makes,
    each with its pipe and its callback.  [initialize] runs to its end
    inside the constructor, so they exist in every state a caller of the
    manager can see. *)
Definition subscribeEvents : list Subscription :=
  [ mkSubscription
      (mkObservable (FromEvent "connect") [TakeUntilDestroy])
      (fun remote _ => detach (refresh remote None));
    mkSubscription
      (mkObservable (FromEvent "event:state") [TakeUntilDestroy; FilterHasStore])
      (fun _ evt =>
         match evtName evt with
         | Some name => set name (evtState evt)
         | None => ret tt
         end);
    mkSubscription
      (mkObservable (FromEvent "event:reset") [TakeUntilDestroy; FilterHasStore])
      (fun _ evt =>
         match evtName evt with
         | Some name => set name (evtState evt)
         | None => ret tt
         end);
    mkSubscription
      (mkObservable (FromEvent "event:entity") [TakeUntilDestroy; FilterHasStore])
      (fun remote evt => detach (refresh remote (evtName evt))) ].

(** Whether an operator lets an item through; [name] is the [name]
    property of the item, if it has one.  [takeUntil(this.destroy$)]
    ends the subscription when [destroy$] first emits;
    [filterHasStore()] keeps the items with [this.hasStore(evt.name)]. *)
Definition passes (m : StateManager) (name : option string) (op : Operator) : bool :=
  match op with
  | TakeUntilDestroy => negb (hasEmitted (destroy_ m))
  | FilterHasStore =>
      match name with
      | Some n => hasStore (ByName n) m
      | None => false
      end
  end.

Definition option_eqb (a b : option string) : bool :=
  match a, b with
  | Some x, Some y => String.eqb x y
  | None, None => true
  | _, _ => false
  end.

Definition Source_eqb (a b : Source) : bool :=
  match a, b with
  | FromEvent x, FromEvent y => String.eqb x y
  | Changes x k, Changes y k' => String.eqb x y && option_eqb k k'
  | _, _ => false
  end.

(** The client emits [e]: one subscription sees it. *)
Definition notify (remote : Remote) (e : ClientEvent) (sub : Subscription)
    : Call unit :=
  m <- read ;;
  if Source_eqb (source (observable sub)) (FromEvent (eventName e))
     && forallb (passes m (evtName e)) (pipe (observable sub))
  then next sub remote e
  else ret tt.

Fixpoint forEach {A} (body : A -> Call unit) (l : list A) : Call unit :=
  match l with
  | [] => ret tt
  | a :: rest => body a ;; forEach body rest
  end.

(** The client emits [e]: every subscription of the manager sees it. *)
Definition emit (remote : Remote) (e : ClientEvent) : Call unit :=
  forEach (notify remote e) subscribeEvents.

(** What a subscriber of [obs] is handed when the manager, in state [m],
    performs the effect [e]: the values the store of [obs] publishes,
    narrowed to the key, when every operator of the pipe lets them
    through. *)
Definition delivered (m : StateManager) (obs : Observable) (e : Effect)
    : list JsValue :=
  match source obs, e with
  | Changes k key, At k' (Emit v) =>
      if String.eqb k k' && forallb (passes m None) (pipe obs)
      then [project key v] else []
  | _, _ => []
  end.

Definition received (obs : Observable) (m : StateManager) (tr : list Effect)
    : list JsValue :=
  flat_map (delivered m obs) tr.

(* ===================================================================== *)
(** ** [refresh], one suspension at a time *)
(* ===================================================================== *)

(** A [refresh] suspended on an [await]: the store whose pull is in
    flight, and the stores the loop has still to visit. *)
Record Pending : Type := mkPending {
  awaiting : string;
  remaining : list string
}.

(** [refresh(storeName?)] up to its first [await]. *)
Definition refresh_start (storeName : option string) : Call (option Pending) :=
  let all :=
    m <- read ;;
    match JsMap.keys (stores m) with
    | [] => ret None
    | k :: rest => onStore k Store.refresh_begin ;; ret (Some (mkPending k rest))
    end in
  match storeName with
  | Some name =>
      if negb (name =? "")%string then
        (_ <- attempt (getStore (ByName name)) ;;
         onStore name Store.refresh_begin ;;
         ret (Some (mkPending name [])))
      else all
  | None => all
  end.

(** The remote answers the pull in flight: the suspended [refresh] runs
    on, in whatever state the manager is by then, up to its next [await]
    or to its end. *)
Definition refresh_resume (p : Pending) (answer : PullResult)
    : Call (option Pending) :=
  onStore (awaiting p) (Store.refresh_settle answer) ;;
  match remaining p with
  | [] => ret None
  | k :: rest => onStore k Store.refresh_begin ;; ret (Some (mkPending k rest))
  end.

(** A suspended [refresh] run to its end with nothing in between: each
    pull is answered by [remote] as soon as it is in flight. *)
Fixpoint refresh_drive (remote : Remote) (k : string) (rest : list string)
    : Call unit :=
  _ <- refresh_resume (mkPending k rest) (remote k) ;;
  match rest with
  | [] => ret tt
  | k' :: rest' => refresh_drive remote k' rest'
  end.

Definition refresh_stepwise (remote : Remote) (storeName : option string)
    : Call unit :=
  p <- refresh_start storeName ;;
  match p with
  | None => ret tt
  | Some p => refresh_drive remote (awaiting p) (remaining p)
  end.

(* ===================================================================== *)
(** ** Reading a trace *)
(* ===================================================================== *)

Definition isRefresh (m : Method) : bool :=
  match m with MRefresh => true | _ => false end.

Definition isReset (m : Method) : bool :=
  match m with MReset => true | _ => false end.

Definition isSet (m : Method) : bool :=
  match m with MSet _ => true | _ => false end.

(** The stores on which a method selected by [p] was invoked, in order,
    one entry per invocation. *)
Definition calls (p : Method -> bool) (tr : list Effect) : list string :=
  flat_map (fun e => match e with
                     | At k (Called m) => if p m then [k] else []
                     | _ => []
                     end) tr.

Definition refreshed : list Effect -> list string := calls isRefresh.
Definition resetted : list Effect -> list string := calls isReset.
Definition setted : list Effect -> list string := calls isSet.

(** The stores that contacted the remote, one entry per pull. *)
Definition requests (tr : list Effect) : list string :=
  flat_map (fun e => match e with
                     | At k Request => [k]
                     | _ => []
                     end) tr.

(** The answers of the remote that reached a store. *)
Definition responses (tr : list Effect) : list (string * PullResult) :=
  flat_map (fun e => match e with
                     | At k (Response r) => [(k, r)]
                     | _ => []
                     end) tr.

(** At most one pull is in flight at any time: a pull is sent only when
    none is awaited, and an answer arrives only for the awaited one. *)
Fixpoint sequential_from (busy : option string) (tr : list Effect) : bool :=
  match tr with
  | [] => true
  | At k Request :: rest =>
      match busy with
      | None => sequential_from (Some k) rest
      | Some _ => false
      end
  | At k (Response _) :: rest =>
      match busy with
      | Some k' => String.eqb k' k && sequential_from None rest
      | None => false
      end
  | _ :: rest => sequential_from busy rest
  end.

Definition sequential (tr : list Effect) : bool :=
  sequential_from None tr.

(** The signals [destroy$] gave to its observers. *)
Definition signals (tr : list Effect) : list Effect :=
  filter (fun e => match e with Fired | Closed => true | _ => false end) tr.

(** A success of the remote. *)
Definition succeeds (remote : Remote) (k : string) : Prop :=
  exists v, remote k = Pulled v.

(** What [store.reset()] leaves of an entry of the map, and what it
    shows. *)
Definition resetEntry (entry : string * Store.t) : string * Store.t :=
  (fst entry, Store.mk (Store.default (snd entry)) (Store.default (snd entry))).

Definition resetTrace (entry : string * Store.t) : list Effect :=
  [At (fst entry) (Called MReset);
   At (fst entry) (Emit (Store.default (snd entry)))].

(** What [destroy()] leaves of [destroy$]. *)
Definition stopped (s : Subject) : Subject :=
  if isStopped s then s else mkSubject true true.

(** A call that neither adds a key to the map nor removes one. *)
Definition keepsKeys {A} (c : Call A) : Prop :=
  forall m, JsMap.keys (stores (final (c m))) = JsMap.keys (stores m).

(** The callback an event reaches when its subscription lets it
    through, and whether it does: [takeUntil(this.destroy$)] on every
    subscription, [filterHasStore()] on those of the events that carry a
    name. *)
Definition route (remote : Remote) (e : ClientEvent) : Call unit :=
  match e with
  | Connect => detach (refresh remote None)
  | EventState evt | EventReset evt =>
      set (StateUpdate.name evt) (StateUpdate.state evt)
  | EventEntity evt => detach (refresh remote (Some (EntityEvent.name evt)))
  end.

Definition routed (e : ClientEvent) (m : StateManager) : bool :=
  negb (hasEmitted (destroy_ m))
  && match evtName e with
     | Some n => hasStore (ByName n) m
     | None => true
     end.

(* ===================================================================== *)
(** ** Everything that can happen to a manager *)
(* ===================================================================== *)

(** The public operations, the resumption of a suspended [refresh], and
    the events of the client. *)
Inductive Op : Type :=
| OpRefresh (remote : Remote) (storeName : option string)
| OpRefreshStart (storeName : option string)
| OpRefreshResume (p : Pending) (answer : PullResult)
| OpReset
| OpGetStore (nameOrType : Ident)
| OpHasStore (nameOrType : Ident)
| OpGet (nameOrType : Ident) (key : option string)
| OpSelect (nameOrType : Ident) (key : option string)
| OpDestroy
| OpEmit (remote : Remote) (e : ClientEvent).

(** The state an operation leaves.  [getStore], [hasStore], [get] and
    [select] assign no field and call no mutating method. *)
Definition perform (op : Op) (m : StateManager) : StateManager :=
  match op with
  | OpRefresh remote storeName => final (refresh remote storeName m)
  | OpRefreshStart storeName => final (refresh_start storeName m)
  | OpRefreshResume p answer => final (refresh_resume p answer m)
  | OpReset => final (reset m)
  | OpDestroy => final (destroy m)
  | OpEmit remote e => final (emit remote e m)
  | OpGetStore _ | OpHasStore _ | OpGet _ _ | OpSelect _ _ => m
  end.

Definition performAll (ops : list Op) (m : StateManager) : StateManager :=
  fold_left (fun m op => perform op m) ops m.

(* ===================================================================== *)
(** ** Sample registries *)
(* ===================================================================== *)

Module Sample.

Definition volume : StoreType := mkStoreType "volume" (JNum 50).
Definition playback : StoreType := mkStoreType "playback" (JStr "stopped").

(** The registry of the specification's example: volume 50, playback
    stopped. *)
Definition player : StateManager := constructor [volume; playback].

(** A remote where the volume is 80 and everything else is playing. *)
Definition online : Remote :=
  fun k => if String.eqb k "volume" then Pulled (JNum 80)
           else Pulled (JStr "playing").

(** A remote that fails the pull of the volume. *)
Definition faulty : Remote :=
  fun k => if String.eqb k "volume" then Rejected (RemoteFailure "timeout")
           else Pulled (JStr "playing").

(** A subscription to the volume, and a [refresh("volume")] suspended on
    its pull. *)
Definition volumeChanges : Observable := Store_select "volume" None.


End Sample.

(* ===================================================================== *)
(** ** Further notions *)
(* ===================================================================== *)

(** The name and the default of every store, in registry order. *)
Definition defaults (entries : JsMap.t Store.t) : list (string * JsValue) :=
  map (fun entry => (fst entry, Store.default (snd entry))) entries.

(** A call that changes neither the names nor the defaults. *)
Definition keepsDefaults {A} (c : Call A) : Prop :=
  forall m, defaults (stores (final (c m))) = defaults (stores m).

(** A store method that leaves the default of the store alone. *)
Definition keepsDefault (body : Store.Task unit) : Prop :=
  forall s, Store.default (final (body s)) = Store.default s.

(** A store that holds its default. *)
Definition pristine (entry : string * Store.t) : Prop :=
  Store.value (snd entry) = Store.default (snd entry).

(** The entry [initialize] makes for a store type. *)
Definition instance (type : StoreType) : string * Store.t :=
  (getStoreNameByType type, Store.create (initialState type)).

(** The events whose callback starts a [refresh] and drops its promise:
    'connect' and 'event:entity'. *)
Definition refreshing (e : ClientEvent) : bool :=
  match e with
  | Connect | EventEntity _ => true
  | EventState _ | EventReset _ => false
  end.

(** What a successful [refresh()] leaves of an entry. *)
Definition pulled (remote : Remote) (entry : string * Store.t) : string * Store.t :=
  (fst entry,
   match remote (fst entry) with
   | Pulled v => Store.mk (Store.default (snd entry)) v
   | Rejected _ => snd entry
   end).

(** A call that leaves [destroy$] as it is. *)
Definition keepsSignal {A} (c : Call A) : Prop :=
  forall m, destroy_ (final (c m)) = destroy_ m.

Definition isDestroy (op : Op) : bool :=
  match op with OpDestroy => true | _ => false end.

(** A remote that answers for the volume and fails the pull of every
    other store. *)
Definition flaky : Remote :=
  fun k => if String.eqb k "volume" then Pulled (JNum 80)
           else Rejected (RemoteFailure "timeout").

(** A second store type that claims the name "volume". *)
Definition loudVolume : StoreType := mkStoreType "volume" (JNum 99).

(* ===================================================================== *)
(** ** Facts about [JsMap] *)
(* ===================================================================== *)

Section JsMapFacts.

Context {V : Type}.
Implicit Types (m : JsMap.t V) (k : string) (v : V).

Lemma has_get m k : JsMap.has k m = true <-> exists v, JsMap.get k m = Some v.
Proof.
  unfold JsMap.has. destruct (JsMap.get k m) as [v|].
  - split; [eauto | reflexivity].
  - split; [discriminate | intros [v H]; discriminate].
Qed.

Lemma has_false_get m k : JsMap.has k m = false <-> JsMap.get k m = None.
Proof.
  unfold JsMap.has. destruct (JsMap.get k m); split; congruence.
Qed.

Lemma has_keys m k : JsMap.has k m = true <-> In k (JsMap.keys m).
Proof.
  unfold JsMap.has. induction m as [|[k' v'] rest IH]; simpl.
  - split; [discriminate | tauto].
  - destruct (String.eqb_spec k' k) as [->|Hne].
    + split; auto.
    + rewrite IH. split; [auto | intros [H|H]; [congruence | exact H]].
Qed.

Lemma get_set_same m k v : JsMap.get k (JsMap.set k v m) = Some v.
Proof.
  induction m as [|[k' v'] rest IH]; simpl.
  - rewrite String.eqb_refl. reflexivity.
  - destruct (String.eqb_spec k' k) as [->|Hne]; simpl.
    + rewrite String.eqb_refl. reflexivity.
    + destruct (String.eqb_spec k' k); [congruence | exact IH].
Qed.

Lemma get_set_other m k k' v :
  k <> k' -> JsMap.get k' (JsMap.set k v m) = JsMap.get k' m.
Proof.
  intros Hne. induction m as [|[k0 v0] rest IH]; simpl.
  - destruct (String.eqb_spec k k'); [congruence | reflexivity].
  - destruct (String.eqb_spec k0 k) as [->|Hk]; simpl.
    + destruct (String.eqb_spec k k'); [congruence | reflexivity].
    + rewrite IH. reflexivity.
Qed.

(** [set] on a present key overwrites in place: no key appears, none
    moves. *)
Lemma keys_set_present m k v :
  JsMap.has k m = true -> JsMap.keys (JsMap.set k v m) = JsMap.keys m.
Proof.
  unfold JsMap.has, JsMap.keys. induction m as [|[k' v'] rest IH]; simpl.
  - discriminate.
  - destruct (String.eqb_spec k' k) as [->|Hne]; simpl.
    + reflexivity.
    + intros H. rewrite (IH H). reflexivity.
Qed.

Lemma keys_set_In m k v k' :
  In k' (JsMap.keys (JsMap.set k v m)) <-> k' = k \/ In k' (JsMap.keys m).
Proof.
  unfold JsMap.keys. induction m as [|[k0 v0] rest IH]; simpl.
  - intuition congruence.
  - destruct (String.eqb_spec k0 k) as [->|Hne]; simpl.
    + intuition congruence.
    + rewrite IH. intuition congruence.
Qed.

Lemma distinct_NoDup (ks : list string) :
  JsMap.distinct ks = true <-> NoDup ks.
Proof.
  induction ks as [|k rest IH]; simpl.
  - split; [constructor | reflexivity].
  - rewrite andb_true_iff, negb_true_iff, IH. split.
    + intros [Hn Hd]. constructor; [|exact Hd].
      intros Hin. assert (existsb (String.eqb k) rest = true) as E.
      { apply existsb_exists. exists k. split; [exact Hin | apply String.eqb_refl]. }
      congruence.
    + intros H. inversion H as [|? ? Hn Hd]; subst. split; [|exact Hd].
      destruct (existsb (String.eqb k) rest) eqn:E; [|reflexivity].
      apply existsb_exists in E. destruct E as [x [Hin Hx]].
      apply String.eqb_eq in Hx. subst x. contradiction.
Qed.

(** A key that is not among those in front of an entry reaches it. *)
Lemma get_app_skip (pre post : JsMap.t V) k :
  ~ In k (JsMap.keys pre) -> JsMap.get k (pre ++ post) = JsMap.get k post.
Proof.
  induction pre as [|[k' v'] pre IH]; simpl; [reflexivity|].
  intros Hn. destruct (String.eqb_spec k' k) as [->|Hne].
  - exfalso. apply Hn. left. reflexivity.
  - apply IH. intros H. apply Hn. right. exact H.
Qed.

Lemma set_app_skip (pre post : JsMap.t V) k v :
  ~ In k (JsMap.keys pre) ->
  JsMap.set k v (pre ++ post) = pre ++ JsMap.set k v post.
Proof.
  induction pre as [|[k' v'] pre IH]; simpl; [reflexivity|].
  intros Hn. destruct (String.eqb_spec k' k) as [->|Hne].
  - exfalso. apply Hn. left. reflexivity.
  - rewrite IH; [reflexivity|]. intros H. apply Hn. right. exact H.
Qed.

End JsMapFacts.

(* ===================================================================== *)
(** ** Facts about the store contract *)
(* ===================================================================== *)

Lemma Store_reset_run (s : Store.t) :
  Store.reset s =
  mkOutcome (inr tt) (Store.mk (Store.default s) (Store.default s))
    [Called MReset; Emit (Store.default s)].
Proof. reflexivity. Qed.

Lemma Store_set_run (v : JsValue) (s : Store.t) :
  Store.set v s =
  mkOutcome (inr tt) (Store.mk (Store.default s) v) [Called (MSet v); Emit v].
Proof. reflexivity. Qed.

Lemma Store_refresh_begin_run (s : Store.t) :
  Store.refresh_begin s = mkOutcome (inr tt) s [Called MRefresh; Request].
Proof. reflexivity. Qed.

Lemma Store_refresh_pulled (v : JsValue) (s : Store.t) :
  Store.refresh (Pulled v) s =
  mkOutcome (inr tt) (Store.mk (Store.default s) v)
    [Called MRefresh; Request; Response (Pulled v); Emit v].
Proof. reflexivity. Qed.

Lemma Store_refresh_rejected (e : Exn) (s : Store.t) :
  Store.refresh (Rejected e) s =
  mkOutcome (inl e) s [Called MRefresh; Request; Response (Rejected e)].
Proof. reflexivity. Qed.

Lemma Store_settle_pulled (v : JsValue) (s : Store.t) :
  Store.refresh_settle (Pulled v) s =
  mkOutcome (inr tt) (Store.mk (Store.default s) v) [Response (Pulled v); Emit v].
Proof. reflexivity. Qed.

Lemma Store_settle_rejected (e : Exn) (s : Store.t) :
  Store.refresh_settle (Rejected e) s =
  mkOutcome (inl e) s [Response (Rejected e)].
Proof. reflexivity. Qed.

(* ===================================================================== *)
(** ** Sample runs *)
(* ===================================================================== *)

Example player_stores :
  stores Sample.player =
  [("volume", Store.mk (JNum 50) (JNum 50));
   ("playback", Store.mk (JStr "stopped") (JStr "stopped"))].
Proof. reflexivity. Qed.

Example refresh_online :
  refresh Sample.online None Sample.player =
  mkOutcome (inr tt)
    (mkStateManager
       [("volume", Store.mk (JNum 50) (JNum 80));
        ("playback", Store.mk (JStr "stopped") (JStr "playing"))]
       (mkSubject false false))
    [At "volume" (Called MRefresh); At "volume" Request;
     At "volume" (Response (Pulled (JNum 80))); At "volume" (Emit (JNum 80));
     At "playback" (Called MRefresh); At "playback" Request;
     At "playback" (Response (Pulled (JStr "playing")));
     At "playback" (Emit (JStr "playing"))].
Proof. reflexivity. Qed.

Example refresh_faulty :
  refresh Sample.faulty None Sample.player =
  mkOutcome (inl (RemoteFailure "timeout")) Sample.player
    [At "volume" (Called MRefresh); At "volume" Request;
     At "volume" (Response (Rejected (RemoteFailure "timeout")))].
Proof. reflexivity. Qed.

Example refresh_unknown :
  refresh Sample.online (Some "tempo") Sample.player =
  mkOutcome (inl (Error "Store 'tempo' does not exist!")) Sample.player [].
Proof. reflexivity. Qed.

Example get_by_type :
  get (ByType Sample.playback) None Sample.player = inr (JStr "stopped").
Proof. reflexivity. Qed.

Example get_sub_field :
  get (ByName "media") (Some "title")
    (constructor
       [mkStoreType "media"
          (JObj [("title", JStr "intro"); ("duration", JNum 12)])])
  = inr (JStr "intro").
Proof. reflexivity. Qed.

Example entity_event_run :
  emit Sample.online (EventEntity (EntityEvent.mk "playback")) Sample.player =
  mkOutcome (inr tt)
    (mkStateManager
       [("volume", Store.mk (JNum 50) (JNum 50));
        ("playback", Store.mk (JStr "stopped") (JStr "playing"))]
       (mkSubject false false))
    [At "playback" (Called MRefresh); At "playback" Request;
     At "playback" (Response (Pulled (JStr "playing")));
     At "playback" (Emit (JStr "playing"))].
Proof. reflexivity. Qed.

Example destroy_run_sample :
  destroy Sample.player =
  mkOutcome (inr tt)
    (mkStateManager (stores Sample.player) (mkSubject true true))
    [At "volume" (Called MReset); At "volume" (Emit (JNum 50));
     At "playback" (Called MReset); At "playback" (Emit (JStr "stopped"));
     Fired; Closed].
Proof. reflexivity. Qed.

(* ===================================================================== *)
(** ** [reset] and [destroy] *)
(* ===================================================================== *)

Lemma forValues_keys body (entries : JsMap.t Store.t) :
  JsMap.keys (final (forValues body entries)) = JsMap.keys entries.
Proof.
  induction entries as [|[k s] rest IH]; simpl; [reflexivity|].
  destruct (result (body k s)); simpl; [reflexivity|].
  rewrite IH. reflexivity.
Qed.

Lemma forValues_reset (entries : JsMap.t Store.t) :
  forValues (fun _ => Store.reset) entries =
  mkOutcome (inr tt) (map resetEntry entries) (flat_map resetTrace entries).
Proof.
  induction entries as [|[k s] rest IH]; simpl; [reflexivity|].
  rewrite IH. reflexivity.
Qed.

Lemma reset_run (m : StateManager) :
  reset m =
  mkOutcome (inr tt)
    (mkStateManager (map resetEntry (stores m)) (destroy_ m))
    (flat_map resetTrace (stores m)).
Proof.
  unfold reset, onStores. rewrite forValues_reset. reflexivity.
Qed.

Lemma resetEntry_idempotent (entries : JsMap.t Store.t) :
  map resetEntry (map resetEntry entries) = map resetEntry entries.
Proof.
  rewrite map_map. apply map_ext. intros [k s]. reflexivity.
Qed.

Lemma reset_idempotent (m : StateManager) :
  final (reset (final (reset m))) = final (reset m).
Proof.
  rewrite !reset_run. simpl. rewrite resetEntry_idempotent. reflexivity.
Qed.

Lemma resetted_resetTrace (entries : JsMap.t Store.t) :
  resetted (flat_map resetTrace entries) = JsMap.keys entries.
Proof.
  induction entries as [|[k s] rest IH]; simpl; [reflexivity|].
  f_equal. exact IH.
Qed.

Lemma requests_resetTrace (entries : JsMap.t Store.t) :
  requests (flat_map resetTrace entries) = [] /\
  responses (flat_map resetTrace entries) = [] /\
  refreshed (flat_map resetTrace entries) = [] /\
  setted (flat_map resetTrace entries) = [] /\
  signals (flat_map resetTrace entries) = [].
Proof.
  induction entries as [|[k s] rest IH]; simpl; [repeat split|]. exact IH.
Qed.

Lemma destroy_run (m : StateManager) :
  result (destroy m) = inr tt /\
  final (destroy m) =
    mkStateManager (map resetEntry (stores m)) (stopped (destroy_ m)) /\
  trace (destroy m) =
    flat_map resetTrace (stores m)
    ++ (if isStopped (destroy_ m) then [] else [Fired; Closed]).
Proof.
  unfold destroy, bind. rewrite reset_run. simpl.
  unfold onDestroy, Subject_next, Subject_complete, stopped, bind, read; simpl.
  destruct (destroy_ m) as [emitted [|]]; simpl; repeat split;
    rewrite ?app_nil_r; reflexivity.
Qed.

Lemma stopped_stopped (s : Subject) : isStopped (stopped s) = true.
Proof. unfold stopped. destruct s as [e [|]]; reflexivity. Qed.

Lemma stopped_idempotent (s : Subject) : stopped (stopped s) = stopped s.
Proof. unfold stopped. destruct s as [e [|]]; reflexivity. Qed.

(** C8: [reset()] calls [reset()] on every registered store, once each
    and in registry order; it sends nothing to the remote and receives
    nothing from it; it returns normally; it leaves every store at its
    default; and a second [reset()] right after the first leaves exactly
    the state the first one left. *)
Theorem reset_total_idempotent (m : StateManager) :
  result (reset m) = inr tt /\
  resetted (trace (reset m)) = JsMap.keys (stores m) /\
  requests (trace (reset m)) = [] /\
  responses (trace (reset m)) = [] /\
  JsMap.keys (stores (final (reset m))) = JsMap.keys (stores m) /\
  Forall (fun s => Store.value s = Store.default s)
    (JsMap.values (stores (final (reset m)))) /\
  final (reset (final (reset m))) = final (reset m).
Proof.
  split; [rewrite reset_run; reflexivity|].
  split; [rewrite reset_run; apply resetted_resetTrace|].
  split; [rewrite reset_run; apply requests_resetTrace|].
  split; [rewrite reset_run; apply requests_resetTrace|].
  split.
  { rewrite reset_run. simpl. unfold JsMap.keys. rewrite map_map.
    apply map_ext. intros [k s]. reflexivity. }
  split; [|apply reset_idempotent].
  rewrite reset_run. simpl. unfold JsMap.values.
  induction (stores m) as [|[k s] rest IH]; simpl; constructor.
  - reflexivity.
  - exact IH.
Qed.

Lemma resetEntry_values (entries : JsMap.t Store.t) :
  Forall (fun s => Store.value s = Store.default s)
    (JsMap.values (map resetEntry entries)).
Proof.
  unfold JsMap.values.
  induction entries as [|[k s] rest IH]; simpl; constructor;
    [reflexivity | exact IH].
Qed.

(** C10: a second [destroy()] returns normally and leaves the state the
    first one left.  That state has every store at its default, under
    the same names in the same order, and [destroy$] stopped (emitted
    and completed, when it was open before the first call).  The second
    call calls [reset()] again on every store, in registry order, and
    does nothing else: [next()] and [complete()] on the completed
    [destroy$] reach no observer, whereas the first call made it emit
    and complete. *)
Theorem destroy_twice (m : StateManager) :
  result (destroy m) = inr tt /\
  result (destroy (final (destroy m))) = inr tt /\
  final (destroy (final (destroy m))) = final (destroy m) /\
  stores (final (destroy (final (destroy m)))) = map resetEntry (stores m) /\
  Forall (fun s => Store.value s = Store.default s)
    (JsMap.values (stores (final (destroy (final (destroy m)))))) /\
  JsMap.keys (stores (final (destroy (final (destroy m)))))
    = JsMap.keys (stores m) /\
  isStopped (destroy_ (final (destroy (final (destroy m))))) = true /\
  (isStopped (destroy_ m) = false ->
   destroy_ (final (destroy (final (destroy m)))) = mkSubject true true /\
   signals (trace (destroy m)) = [Fired; Closed]) /\
  resetted (trace (destroy (final (destroy m)))) = JsMap.keys (stores m) /\
  trace (destroy (final (destroy m))) = trace (reset (final (destroy m))) /\
  signals (trace (destroy (final (destroy m)))) = [].
Proof.
  destruct (destroy_run m) as [Hr [Hf Ht]].
  destruct (destroy_run (final (destroy m))) as [Hr' [Hf' Ht']].
  split; [exact Hr|]. split; [exact Hr'|].
  assert (isStopped (destroy_ (final (destroy m))) = true) as Hs.
  { rewrite Hf. apply stopped_stopped. }
  rewrite Hs, app_nil_r in Ht'.
  assert (final (destroy (final (destroy m))) = final (destroy m)) as Hsame.
  { rewrite Hf'. rewrite Hf. simpl.
    rewrite resetEntry_idempotent, stopped_idempotent. reflexivity. }
  assert (JsMap.keys (map resetEntry (stores m)) = JsMap.keys (stores m)) as Hkeys.
  { unfold JsMap.keys. rewrite map_map. apply map_ext. intros [k s]. reflexivity. }
  split; [exact Hsame|]. rewrite Hsame.
  split; [rewrite Hf; reflexivity|].
  split.
  { rewrite Hf. cbn [stores]. apply resetEntry_values. }
  split; [rewrite Hf; exact Hkeys|].
  split; [exact Hs|].
  split.
  { intros Hopen. rewrite Hf, Ht, Hopen. unfold stopped. rewrite Hopen.
    split; [reflexivity|].
    unfold signals. rewrite filter_app.
    fold (signals (flat_map resetTrace (stores m))).
    destruct (requests_resetTrace (stores m)) as (_ & _ & _ & _ & Hsig).
    rewrite Hsig. reflexivity. }
  split.
  { rewrite Ht', Hf. cbn [stores]. rewrite resetted_resetTrace. exact Hkeys. }
  split.
  - rewrite Ht', reset_run. reflexivity.
  - rewrite Ht'. apply requests_resetTrace.
Qed.

Lemma destroy_twice_witness :
  destroy_
    (final (destroy (final (destroy
       (final (refresh Sample.online None Sample.player))))))
    = mkSubject true true /\
  stores
    (final (destroy (final (destroy
       (final (refresh Sample.online None Sample.player))))))
    = stores Sample.player.
Proof.
  destruct (destroy_twice (final (refresh Sample.online None Sample.player)))
    as (_ & _ & _ & Hstores & _ & _ & _ & Hopen & _).
  split; [apply Hopen; reflexivity | exact Hstores].
Defined.

(* ===================================================================== *)
(** ** Name resolution: [hasStore], [getStore], [get], [select] *)
(* ===================================================================== *)

Lemma Outcome_eq {E S A} (o o' : Outcome E S A) :
  result o = result o' -> final o = final o' -> trace o = trace o' -> o = o'.
Proof. destruct o, o'; simpl; intros; subst; reflexivity. Qed.

Lemma hasStore_resolve (nameOrType : Ident) (m : StateManager) :
  hasStore (ByName (resolve nameOrType)) m = hasStore nameOrType m.
Proof. reflexivity. Qed.

Lemma getStore_found (nameOrType : Ident) (m : StateManager) :
  hasStore nameOrType m = true ->
  exists store,
    getStore nameOrType m = inr store /\
    JsMap.get (resolve nameOrType) (stores m) = Some store.
Proof.
  intros H. unfold getStore. rewrite hasStore_resolve, H. simpl.
  apply has_get in H. destruct H as [store H]. rewrite H. eauto.
Qed.

Lemma getStore_missing (nameOrType : Ident) (m : StateManager) :
  hasStore nameOrType m = false ->
  getStore nameOrType m = inl (doesNotExist (resolve nameOrType)).
Proof.
  intros H. unfold getStore. rewrite hasStore_resolve, H. reflexivity.
Qed.

(** [getStore] throws exactly when the identifier resolves to no
    registered store, and then the error names the identifier; [get] and
    [select] throw the same error in the same case, and only then. *)
Lemma NotFound_iff_unregistered (nameOrType : Ident) (key : option string)
    (m : StateManager) :
  (hasStore nameOrType m = false <->
   getStore nameOrType m = inl (doesNotExist (resolve nameOrType))) /\
  (hasStore nameOrType m = false <->
   get nameOrType key m = inl (doesNotExist (resolve nameOrType))) /\
  (hasStore nameOrType m = false <->
   select nameOrType key m = inl (doesNotExist (resolve nameOrType))) /\
  (hasStore nameOrType m = true <-> exists store, getStore nameOrType m = inr store) /\
  (hasStore nameOrType m = true <-> exists v, get nameOrType key m = inr v) /\
  (hasStore nameOrType m = true <-> exists obs, select nameOrType key m = inr obs).
Proof.
  unfold get, select.
  destruct (hasStore nameOrType m) eqn:H.
  - destruct (getStore_found _ _ H) as [store [Hs _]]. rewrite Hs.
    repeat split; intros; try discriminate; eauto.
  - rewrite (getStore_missing _ _ H).
    repeat split; intros; try discriminate; try reflexivity;
      match goal with X : exists _, _ |- _ => destruct X; discriminate end.
Qed.

(** [refresh(name)] for a name that is not the empty string throws the
    error of [getStore] when the name is not registered, before any
    store is touched. *)
Lemma refresh_unregistered (remote : Remote) (name : string) (m : StateManager) :
  name <> "" ->
  hasStore (ByName name) m = false ->
  refresh remote (Some name) m = mkOutcome (inl (doesNotExist name)) m [].
Proof.
  intros Hne H. unfold refresh.
  destruct (String.eqb_spec name "") as [->|_]; [congruence|]. simpl.
  unfold bind, attempt. rewrite (getStore_missing _ _ H). reflexivity.
Qed.

(** C2, the defect: [refresh("")] takes the branch of the call without
    argument.  On the sample registry the empty name is not registered
    and [getStore("")] throws, yet [refresh("")] throws nothing and
    refreshes every store. *)
Theorem refresh_empty_name_is_bulk :
  (forall remote m, refresh remote (Some "") m = refresh remote None m) /\
  hasStore (ByName "") Sample.player = false /\
  getStore (ByName "") Sample.player = inl (Error "Store '' does not exist!") /\
  result (refresh Sample.online (Some "") Sample.player) = inr tt /\
  refreshed (trace (refresh Sample.online (Some "") Sample.player))
    = ["volume"; "playback"].
Proof. repeat split. Qed.

(* ===================================================================== *)
(** ** [refresh]: order, failure, frame *)
(* ===================================================================== *)

Section BulkRefresh.

Variable remote : Remote.

Lemma forValues_pulled k s v (rest : JsMap.t Store.t) :
  remote k = Pulled v ->
  forValues (fun k => Store.refresh (remote k)) ((k, s) :: rest) =
  let o := forValues (fun k => Store.refresh (remote k)) rest in
  mkOutcome (result o)
    ((k, Store.mk (Store.default s) v) :: final o)
    ([At k (Called MRefresh); At k Request; At k (Response (Pulled v));
      At k (Emit v)] ++ trace o).
Proof. intros H. simpl. rewrite H. reflexivity. Qed.

Lemma forValues_rejected k s e (rest : JsMap.t Store.t) :
  remote k = Rejected e ->
  forValues (fun k => Store.refresh (remote k)) ((k, s) :: rest) =
  mkOutcome (inl e) ((k, s) :: rest)
    [At k (Called MRefresh); At k Request; At k (Response (Rejected e))].
Proof. intros H. simpl. rewrite H. reflexivity. Qed.

(** The loop of [refresh()] on the entries of the map: the entries split
    into those visited and those never reached; each visited store is
    refreshed and pulled once, in order, with one pull in flight at a
    time; the entries never reached are left as they were; the loop ends
    normally only when no entry is left, and otherwise with the reason
    of the one rejected pull, which is the last visited. *)
Lemma forValues_refresh (entries : JsMap.t Store.t) :
  let o := forValues (fun k => Store.refresh (remote k)) entries in
  exists visited skipped visited',
    entries = visited ++ skipped /\
    final o = visited' ++ skipped /\
    JsMap.keys visited' = JsMap.keys visited /\
    refreshed (trace o) = JsMap.keys visited /\
    requests (trace o) = JsMap.keys visited /\
    setted (trace o) = [] /\
    sequential (trace o) = true /\
    match result o with
    | inr _ => skipped = [] /\ Forall (succeeds remote) (JsMap.keys visited)
    | inl e =>
        exists before k,
          JsMap.keys visited = before ++ [k] /\
          remote k = Rejected e /\
          Forall (succeeds remote) before
    end.
Proof.
  induction entries as [|[k s] rest IH].
  - exists [], [], []. simpl. repeat split. constructor.
  - destruct (remote k) as [v|e] eqn:Hk.
    + rewrite (forValues_pulled _ _ Hk).
      destruct IH as (visited & skipped & visited' & He & Hf & Hk' & Hr & Hq & Hs & Hseq & Hres).
      exists ((k, s) :: visited), skipped,
        ((k, Store.mk (Store.default s) v) :: visited').
      cbn [result final trace]. simpl.
      rewrite He at 1. rewrite Hf, Hk', Hr, Hq, Hs.
      unfold sequential in *. simpl. rewrite String.eqb_refl. simpl.
      repeat split; try assumption.
      destruct (result (forValues _ rest)) as [e|[]].
      * destruct Hres as (before & k0 & Hb & Hrej & Hall).
        exists (k :: before), k0. simpl. rewrite Hb.
        repeat split; [exact Hrej|]. constructor; [exists v; exact Hk | exact Hall].
      * destruct Hres as [-> Hall]. split; [reflexivity|].
        constructor; [exists v; exact Hk | exact Hall].
    + rewrite (forValues_rejected _ _ Hk).
      exists [(k, s)], rest, [(k, s)]. simpl.
      unfold sequential. simpl. rewrite String.eqb_refl.
      repeat split.
      exists [], k. simpl. repeat split; [exact Hk | constructor].
Qed.


End BulkRefresh.

Lemma length_keys {V} (m : JsMap.t V) : length (JsMap.keys m) = length m.
Proof. apply length_map. Qed.

Lemma onStore_run (k : string) (body : Store.Task unit) (m : StateManager)
    (s : Store.t) :
  JsMap.get k (stores m) = Some s ->
  onStore k body m =
  mkOutcome (result (body s))
    (mkStateManager (JsMap.set k (final (body s)) (stores m)) (destroy_ m))
    (map (At k) (trace (body s))).
Proof. intros H. unfold onStore. rewrite H. reflexivity. Qed.

(** [refresh(name)] on a registered name that is not the empty string:
    the one store is refreshed, with the outcome of its own [refresh()]. *)
Lemma refresh_registered (remote : Remote) (name : string) (m : StateManager)
    (s : Store.t) :
  name <> "" ->
  JsMap.get name (stores m) = Some s ->
  refresh remote (Some name) m = onStore name (Store.refresh (remote name)) m.
Proof.
  intros Hne Hs. unfold refresh.
  destruct (String.eqb_spec name "") as [->|_]; [congruence|]. simpl.
  assert (hasStore (ByName name) m = true) as H by (apply has_get; eauto).
  destruct (getStore_found _ _ H) as [s' [Hg _]].
  unfold bind, attempt. rewrite Hg. simpl.
  apply Outcome_eq; reflexivity.
Qed.



(* ===================================================================== *)
(** ** Event routing *)
(* ===================================================================== *)

Lemma bind_skip {A B} (c : Call A) (k : A -> Call B) (m : StateManager) (a : A) :
  c m = mkOutcome (inr a) m [] -> bind c k m = k a m.
Proof.
  intros H. unfold bind. rewrite H. cbn [result final trace].
  apply Outcome_eq; reflexivity.
Qed.

Lemma bind_last (c : Call unit) (k : unit -> Call unit) (m : StateManager) :
  (forall m', k tt m' = mkOutcome (inr tt) m' []) -> bind c k m = c m.
Proof.
  intros H. unfold bind. destruct (result (c m)) as [e|[]] eqn:E.
  - apply Outcome_eq; cbn [result final trace]; congruence.
  - rewrite H. apply Outcome_eq; cbn [result final trace];
      [congruence | reflexivity | apply app_nil_r].
Qed.

Lemma notify_run (remote : Remote) (e : ClientEvent) (sub : Subscription)
    (m : StateManager) :
  notify remote e sub m =
  if Source_eqb (source (observable sub)) (FromEvent (eventName e))
     && forallb (passes m (evtName e)) (pipe (observable sub))
  then next sub remote e m
  else mkOutcome (inr tt) m [].
Proof.
  unfold notify, bind, read. cbn [result final trace].
  destruct (Source_eqb _ _ && forallb _ _).
  - apply Outcome_eq; reflexivity.
  - reflexivity.
Qed.

(** A subscription made on another event name sees nothing. *)
Lemma notify_other (remote : Remote) (e : ClientEvent) (sub : Subscription)
    (m : StateManager) :
  Source_eqb (source (observable sub)) (FromEvent (eventName e)) = false ->
  notify remote e sub m = mkOutcome (inr tt) m [].
Proof. intros H. rewrite notify_run, H. reflexivity. Qed.

(** The subscriptions in front of the one an event meets, and those
    behind it, see nothing. *)
Ltac skip_subscription :=
  rewrite (@bind_skip _ _ (notify _ _ _) _ _ tt)
    by (apply notify_other; reflexivity).

Ltac meet_subscription :=
  match goal with
  | |- bind (notify ?remote ?e ?sub) _ ?m = _ =>
      transitivity (notify remote e sub m);
      [ apply bind_last; intros ?; repeat skip_subscription; reflexivity
      | rewrite notify_run;
        cbn [observable source pipe next forallb passes evtName evtState];
        match goal with
        | |- context [Source_eqb ?a ?b] => change (Source_eqb a b) with true
        end;
        cbn [andb negb] ]
  end.

(** Of the four subscriptions, an event meets the one made on its name;
    it reaches the callback when the pipe lets it through, and is
    dropped otherwise, with no effect and no exception. *)
Lemma emit_run (remote : Remote) (e : ClientEvent) (m : StateManager) :
  emit remote e m =
  if routed e m then route remote e m else mkOutcome (inr tt) m [].
Proof.
  unfold emit, subscribeEvents, forEach, routed, route.
  destruct e as [|evt|evt|evt]; repeat skip_subscription; meet_subscription;
    cbn [evtName];
    destruct (hasEmitted (destroy_ m)); cbn [andb negb]; try reflexivity;
    destruct (hasStore _ m); reflexivity.
Qed.

Arguments emit : simpl never.
Arguments refresh : simpl never.
Arguments set : simpl never.
Arguments detach : simpl never.
Arguments hasStore : simpl never.

Lemma set_registered (name : string) (v : JsValue) (m : StateManager)
    (s : Store.t) :
  JsMap.get name (stores m) = Some s ->
  set name v m =
  mkOutcome (inr tt)
    (mkStateManager
       (JsMap.set name (Store.mk (Store.default s) v) (stores m))
       (destroy_ m))
    [At name (Called (MSet v)); At name (Emit v)].
Proof.
  intros H. unfold set, bind, read. cbn -[onStore JsMap.has].
  assert (JsMap.has name (stores m) = true) as Hh by (apply has_get; eauto).
  rewrite Hh. erewrite onStore_run by eassumption. reflexivity.
Qed.

(** What [get] answers depends only on the entry the identifier
    resolves to. *)
Lemma get_same_entry (nameOrType : Ident) (key : option string)
    (m m' : StateManager) :
  JsMap.get (resolve nameOrType) (stores m')
    = JsMap.get (resolve nameOrType) (stores m) ->
  get nameOrType key m' = get nameOrType key m.
Proof.
  intros H. unfold get, getStore, hasStore, JsMap.has. simpl.
  rewrite H. reflexivity.
Qed.

Lemma get_read (nameOrType : Ident) (key : option string) (m : StateManager)
    (s : Store.t) :
  JsMap.get (resolve nameOrType) (stores m) = Some s ->
  get nameOrType key m = inr (Store.get key s).
Proof.
  intros H. unfold get, getStore, hasStore, JsMap.has. simpl.
  rewrite H. reflexivity.
Qed.

(** C4: in a registry that [destroy()] has not closed, a state-delta
    event for a registered name returns normally, makes [get(name)] the
    state it carries, and changes what [get] answers for no identifier
    that resolves to another name; a state-delta or reset event that
    names an unregistered store does nothing at all: same state, no
    effect, no exception. *)
Theorem state_event_applies (remote : Remote) (m : StateManager)
    (name unknown : string) (state : JsValue) :
  hasEmitted (destroy_ m) = false ->
  hasStore (ByName name) m = true ->
  hasStore (ByName unknown) m = false ->
  let o := emit remote (EventState (StateUpdate.mk name state)) m in
  result o = inr tt /\
  get (ByName name) None (final o) = inr state /\
  (forall other key,
     resolve other <> name -> get other key (final o) = get other key m) /\
  JsMap.keys (stores (final o)) = JsMap.keys (stores m) /\
  setted (trace o) = [name] /\
  emit remote (EventState (StateUpdate.mk unknown state)) m
    = mkOutcome (inr tt) m [] /\
  emit remote (EventReset (StateUpdate.mk unknown state)) m
    = mkOutcome (inr tt) m [].
Proof.
  intros Hactive Hreg Hunk. cbv zeta.
  rewrite !emit_run. unfold routed. cbn [evtName StateUpdate.name].
  rewrite Hactive, Hreg, Hunk. cbn [negb andb]. unfold route.
  cbn [StateUpdate.name StateUpdate.state].
  destruct (proj1 (has_get _ _) Hreg) as [s Hs].
  erewrite set_registered by exact Hs. cbn [result final trace stores].
  repeat split.
  - apply (@get_read (ByName name) None _ (Store.mk (Store.default s) state)).
    apply get_set_same.
  - intros other key Hne. apply get_same_entry. simpl.
    apply get_set_other. congruence.
  - apply keys_set_present. exact Hreg.
Qed.

(** The specification's example: volume 50 and playback stopped; the
    delta [{name: "volume", state: 80}] and the unknown name. *)
Lemma state_event_applies_witness :
  get (ByName "volume") None
    (final (emit Sample.online
              (EventState (StateUpdate.mk "volume" (JNum 80))) Sample.player))
    = inr (JNum 80) /\
  get (ByName "playback") None
    (final (emit Sample.online
              (EventState (StateUpdate.mk "volume" (JNum 80))) Sample.player))
    = inr (JStr "stopped") /\
  emit Sample.online (EventState (StateUpdate.mk "unknown" (JNum 80)))
    Sample.player = mkOutcome (inr tt) Sample.player [].
Proof.
  destruct (@state_event_applies Sample.online Sample.player
              "volume" "unknown" (JNum 80))
    as (_ & Hget & Hother & _ & _ & Hunknown & _);
    [reflexivity | reflexivity | reflexivity |].
  split; [exact Hget|]. split; [|exact Hunknown].
  rewrite (Hother (ByName "playback") None); [reflexivity|].
  simpl. discriminate.
Defined.

Lemma calls_app p (tr tr' : list Effect) :
  calls p (tr ++ tr') = calls p tr ++ calls p tr'.
Proof. apply flat_map_app. Qed.

Lemma requests_app (tr tr' : list Effect) :
  requests (tr ++ tr') = requests tr ++ requests tr'.
Proof. apply flat_map_app. Qed.

Lemma detach_run (c : Call unit) (m : StateManager) :
  result (detach c m) = inr tt /\
  final (detach c m) = final (c m) /\
  (forall p, calls p (trace (detach c m)) = calls p (trace (c m))) /\
  requests (trace (detach c m)) = requests (trace (c m)).
Proof.
  unfold detach. simpl. repeat split.
  - intros p. rewrite calls_app.
    destruct (result (c m)); simpl; apply app_nil_r.
  - rewrite requests_app. destruct (result (c m)); simpl; apply app_nil_r.
Qed.

Lemma count_occ_distinct (ks : list string) (k : string) :
  JsMap.distinct ks = true -> In k ks -> count_occ string_dec ks k = 1.
Proof.
  intros Hd Hin. apply distinct_NoDup in Hd.
  apply (proj1 (NoDup_count_occ' string_dec ks) Hd). exact Hin.
Qed.

(** C5, counterexample: the remote rejects the pull of the first store;
    the connect event then never invokes [refresh()] on the second one. *)
Lemma connect_skips_after_failure :
  hasEmitted (destroy_ Sample.player) = false /\
  hasStore (ByName "playback") Sample.player = true /\
  refreshed (trace (emit Sample.faulty Connect Sample.player)) = ["volume"] /\
  count_occ string_dec
    (refreshed (trace (emit Sample.faulty Connect Sample.player))) "playback"
    = 0.
Proof. repeat split. Qed.

(** C5, amended: an inbound connect event (one that reaches the
    manager: [destroy$] has not emitted) raises nothing, makes no direct
    [set()] call, and calls [refresh()], with one pull, once on each
    store in registry order up to and including the first store whose
    refresh fails.  Either no refresh fails and every store is visited,
    or the visit ends with the first store whose pull is rejected: the
    stores in front of it were all refreshed with success, those behind
    it are neither refreshed nor changed, and the rejection stays
    unhandled.  When no refresh fails, that is exactly one [refresh()]
    on every registered store. *)
Theorem connect_refreshes_in_order (remote : Remote) (m : StateManager) :
  hasEmitted (destroy_ m) = false ->
  let o := emit remote Connect m in
  result o = inr tt /\
  setted (trace o) = [] /\
  (exists visited skipped,
     JsMap.keys (stores m) = visited ++ skipped /\
     refreshed (trace o) = visited /\
     requests (trace o) = visited /\
     skipn (length visited) (stores (final o))
       = skipn (length visited) (stores m) /\
     ((skipped = [] /\ Forall (succeeds remote) visited) \/
      (exists before k e,
         visited = before ++ [k] /\
         Forall (succeeds remote) before /\
         remote k = Rejected e /\
         In (Unhandled e) (trace o)))) /\
  ((forall k, hasStore (ByName k) m = true -> succeeds remote k) ->
   refreshed (trace o) = JsMap.keys (stores m) /\
   (JsMap.distinct (JsMap.keys (stores m)) = true ->
    forall k, hasStore (ByName k) m = true ->
      count_occ string_dec (refreshed (trace o)) k = 1)).
Proof.
  intros Hactive. cbv zeta.
  rewrite emit_run. unfold routed. rewrite Hactive. cbn [negb andb evtName].
  unfold route.
  destruct (detach_run (refresh remote None) m) as (Hr & Hfin & Hc & Hq).
  assert (forall e, result (refresh remote None m) = inl e ->
            In (Unhandled e) (trace (detach (refresh remote None) m))) as Hun.
  { intros e He. unfold detach. cbn [trace]. rewrite He.
    apply in_or_app. right. left. reflexivity. }
  split; [exact Hr|].
  unfold setted, refreshed. rewrite !Hc, Hq, Hfin.
  fold (refreshed (trace (refresh remote None m))).
  destruct (forValues_refresh remote (stores m))
    as (visited & skipped & visited' & He & Hf & Hkv & Hv & Hrq & Hs & _ & Hres).
  assert (JsMap.keys (stores m) = JsMap.keys visited ++ JsMap.keys skipped) as Hkeys
    by (rewrite He; apply map_app).
  assert (refreshed (trace (refresh remote None m)) = JsMap.keys visited) as Hv'
    by exact Hv.
  assert (result (refresh remote None m) = inr tt -> skipped = []) as Hdone.
  { intros Hok. change (result (forValues (fun k => Store.refresh (remote k))
                                  (stores m)) = inr tt) in Hok.
    rewrite Hok in Hres. tauto. }
  split; [exact Hs|]. split.
  - exists (JsMap.keys visited), (JsMap.keys skipped).
    split; [exact Hkeys|]. split; [exact Hv'|]. split; [exact Hrq|]. split.
    + change (stores (final (refresh remote None m)))
        with (final (forValues (fun k => Store.refresh (remote k)) (stores m))).
      rewrite Hf, He.
      assert (length visited' = length (JsMap.keys visited)) as L'
        by (rewrite <- Hkv; symmetry; apply length_keys).
      assert (length visited = length (JsMap.keys visited)) as L
        by (symmetry; apply length_keys).
      rewrite !skipn_app, L, L', Nat.sub_diag.
      rewrite (@skipn_all2 _ _ visited') by lia.
      rewrite (@skipn_all2 _ _ visited) by lia. reflexivity.
    + pose proof Hun as Hun'. unfold refresh, onStores in Hun'.
      cbn [result] in Hun'.
      destruct (result (forValues _ (stores m))) as [e|[]].
      * right. destruct Hres as (before & k & Hb & Hk & Hok).
        exists before, k, e. repeat split; try assumption.
        apply Hun'. reflexivity.
      * left. destruct Hres as [-> Hok]. split; [reflexivity | exact Hok].
  - intros Hall.
    assert (skipped = []) as ->.
    { destruct (result (forValues _ (stores m))) as [e|[]]; [|tauto].
      destruct Hres as (before & k0 & Hb & Hk0 & _).
      assert (succeeds remote k0) as [v Hv0].
      { apply Hall. apply has_keys. rewrite Hkeys, Hb.
        apply in_or_app. left. apply in_or_app. right. left. reflexivity. }
      congruence. }
    cbn [JsMap.keys map] in Hkeys. rewrite app_nil_r in Hkeys.
    rewrite Hv', <- Hkeys. split; [reflexivity|].
    intros Hdistinct k Hk.
    apply count_occ_distinct; [exact Hdistinct|]. apply has_keys. exact Hk.
Qed.

Lemma connect_refreshes_in_order_witness :
  refreshed (trace (emit Sample.online Connect Sample.player))
    = ["volume"; "playback"] /\
  setted (trace (emit Sample.online Connect Sample.player)) = [] /\
  count_occ string_dec
    (refreshed (trace (emit Sample.online Connect Sample.player))) "playback"
    = 1.
Proof.
  destruct (@connect_refreshes_in_order Sample.online Sample.player)
    as (_ & Hset & _ & Hall); [reflexivity|].
  destruct Hall as [Hkeys Hcount].
  { intros k _. unfold succeeds, Sample.online.
    destruct (String.eqb k "volume"); eauto. }
  split; [exact Hkeys|]. split; [exact Hset|].
  apply Hcount; reflexivity.
Defined.

Lemma refresh_named_run (remote : Remote) (name : string) (m : StateManager)
    (s : Store.t) :
  name <> "" ->
  JsMap.get name (stores m) = Some s ->
  refresh remote (Some name) m =
  mkOutcome
    (match remote name with Pulled _ => inr tt | Rejected e => inl e end)
    (mkStateManager
       (JsMap.set name
          (match remote name with
           | Pulled v => Store.mk (Store.default s) v
           | Rejected _ => s
           end) (stores m))
       (destroy_ m))
    ([At name (Called MRefresh); At name Request; At name (Response (remote name))]
     ++ match remote name with
        | Pulled v => [At name (Emit v)]
        | Rejected _ => []
        end).
Proof.
  intros Hne Hs. erewrite refresh_registered by eassumption.
  erewrite onStore_run by eassumption.
  destruct (remote name) as [v|e].
  - rewrite Store_refresh_pulled. reflexivity.
  - rewrite Store_refresh_rejected. reflexivity.
Qed.

(** [refresh(name)], for a name that is not the empty string, changes
    what the registry holds under no other name. *)
Lemma refresh_named_frame (remote : Remote) (name : string) (m : StateManager)
    (other : Ident) (key : option string) :
  name <> "" ->
  resolve other <> name ->
  get other key (final (refresh remote (Some name) m)) = get other key m.
Proof.
  intros Hne Hother. apply get_same_entry.
  destruct (JsMap.get name (stores m)) as [s|] eqn:Hs.
  - erewrite refresh_named_run by eassumption. simpl.
    apply get_set_other. congruence.
  - rewrite refresh_unregistered; [reflexivity | exact Hne |].
    apply has_false_get. exact Hs.
Qed.

(** An entity-changed event for a registered name that is not the empty
    string, in a registry that [destroy()] has not closed: [refresh()]
    is invoked on that store and on no other, and [set()] on none. *)
Lemma entity_event_refreshes_named (remote : Remote) (m : StateManager)
    (name : string) :
  hasEmitted (destroy_ m) = false ->
  name <> "" ->
  hasStore (ByName name) m = true ->
  let o := emit remote (EventEntity (EntityEvent.mk name)) m in
  result o = inr tt /\
  refreshed (trace o) = [name] /\
  requests (trace o) = [name] /\
  setted (trace o) = [].
Proof.
  intros Hactive Hne Hreg. cbv zeta.
  rewrite emit_run. unfold routed. cbn [evtName EntityEvent.name].
  rewrite Hactive, Hreg. cbn [negb andb]. unfold route.
  cbn [EntityEvent.name].
  destruct (proj1 (has_get _ _) Hreg) as [s Hs].
  destruct (detach_run (refresh remote (Some name)) m) as (Hr & _ & Hc & Hq).
  unfold refreshed, setted. rewrite !Hc, Hq.
  erewrite refresh_named_run by eassumption. simpl.
  destruct (remote name); repeat split; assumption.
Qed.

(** C6: an inbound entity-changed event whose name matches a registered
    store calls [refresh()], with one pull, on that store and on no
    other, makes no direct [set()] call on any store, raises nothing,
    and changes what the registry holds under no other name.  A
    registered name is taken to be a name: not the empty string, which
    [refresh] does not tell from an absent argument. *)
Theorem entity_event_refreshes_only_named (remote : Remote) (m : StateManager)
    (name : string) :
  hasEmitted (destroy_ m) = false ->
  name <> "" ->
  hasStore (ByName name) m = true ->
  let o := emit remote (EventEntity (EntityEvent.mk name)) m in
  result o = inr tt /\
  refreshed (trace o) = [name] /\
  requests (trace o) = [name] /\
  setted (trace o) = [] /\
  resetted (trace o) = [] /\
  (forall other key,
     resolve other <> name -> get other key (final o) = get other key m).
Proof.
  intros Hactive Hne Hreg.
  destruct (@entity_event_refreshes_named remote m name Hactive Hne Hreg)
    as (Hr & Hv & Hq & Hs).
  cbv zeta. split; [exact Hr|]. split; [exact Hv|]. split; [exact Hq|].
  split; [exact Hs|].
  rewrite emit_run. unfold routed. cbn [evtName EntityEvent.name].
  rewrite Hactive, Hreg. cbn [negb andb]. unfold route.
  cbn [EntityEvent.name].
  destruct (detach_run (refresh remote (Some name)) m) as (_ & Hfin & Hc & _).
  unfold resetted. rewrite Hc, Hfin.
  destruct (proj1 (has_get _ _) Hreg) as [s Hs'].
  split.
  - erewrite refresh_named_run by eassumption. cbn [trace].
    destruct (remote name); reflexivity.
  - intros other key Hother. apply refresh_named_frame; assumption.
Qed.

Lemma entity_event_refreshes_only_named_witness :
  refreshed
    (trace (emit Sample.online (EventEntity (EntityEvent.mk "playback"))
              Sample.player)) = ["playback"] /\
  get (ByName "volume") None
    (final (emit Sample.online (EventEntity (EntityEvent.mk "playback"))
              Sample.player)) = inr (JNum 50).
Proof.
  destruct (@entity_event_refreshes_only_named Sample.online Sample.player
              "playback")
    as (_ & Hv & _ & _ & _ & Hframe);
    [reflexivity | discriminate | reflexivity |].
  split; [exact Hv|].
  rewrite (Hframe (ByName "volume") None); [reflexivity | discriminate].
Defined.

(** C7: whatever the state of the registry, [refresh(name)] for a
    registered name calls [refresh()], with one pull, on the named store
    and on no other, and changes the value of no other store: what the
    map holds under every other name, what [get] reads for every
    identifier that resolves to another name, the names, their order and
    [destroy$] are as before, whether the pull is answered or rejected.
    A registered name is taken to be a name: not the empty string, which
    [refresh] does not tell from an absent argument. *)
Theorem refresh_named_changes_only_named (remote : Remote) (m : StateManager)
    (name : string) :
  name <> "" ->
  hasStore (ByName name) m = true ->
  let o := refresh remote (Some name) m in
  (forall k, k <> name ->
     JsMap.get k (stores (final o)) = JsMap.get k (stores m)) /\
  (forall other key,
     resolve other <> name -> get other key (final o) = get other key m) /\
  JsMap.keys (stores (final o)) = JsMap.keys (stores m) /\
  destroy_ (final o) = destroy_ m /\
  refreshed (trace o) = [name] /\
  requests (trace o) = [name] /\
  responses (trace o) = [(name, remote name)] /\
  setted (trace o) = [] /\
  resetted (trace o) = [] /\
  result o = match remote name with
             | Pulled _ => inr tt
             | Rejected e => inl e
             end.
Proof.
  intros Hne Hreg. cbv zeta.
  destruct (proj1 (has_get _ _) Hreg) as [s Hs]. cbn [resolve] in Hs.
  split.
  { intros k Hk. erewrite refresh_named_run by eassumption. cbn [final stores].
    apply get_set_other. congruence. }
  split; [intros other key Hother; apply refresh_named_frame; assumption|].
  erewrite refresh_named_run by eassumption. cbn [result final trace stores destroy_].
  split; [apply keys_set_present; exact Hreg|].
  destruct (remote name); repeat split.
Qed.

Lemma refresh_named_changes_only_named_witness :
  get (ByName "playback") None
    (final (refresh Sample.online (Some "volume") Sample.player))
    = inr (JStr "stopped") /\
  refreshed (trace (refresh Sample.online (Some "volume") Sample.player))
    = ["volume"].
Proof.
  destruct (@refresh_named_changes_only_named Sample.online Sample.player
              "volume")
    as (_ & Hframe & _ & _ & Hv & _); [discriminate | reflexivity |].
  split; [|exact Hv].
  rewrite (Hframe (ByName "playback") None); [reflexivity | discriminate].
Defined.

(* ===================================================================== *)
(** ** The names of the registry never change *)
(* ===================================================================== *)

Lemma keepsKeys_ret {A} (a : A) : keepsKeys (ret a).
Proof. intros m. reflexivity. Qed.

Lemma keepsKeys_bind {A B} (c : Call A) (k : A -> Call B) :
  keepsKeys c -> (forall a, keepsKeys (k a)) -> keepsKeys (bind c k).
Proof.
  intros Hc Hk m. unfold bind. destruct (result (c m)) as [e|a] eqn:E; simpl.
  - apply Hc.
  - rewrite Hk. apply Hc.
Qed.

Lemma keepsKeys_read : keepsKeys read.
Proof. intros m. reflexivity. Qed.

Lemma keepsKeys_attempt {A} (f : StateManager -> Exn + A) :
  keepsKeys (attempt f).
Proof. intros m. unfold attempt. destruct (f m); reflexivity. Qed.

Lemma keepsKeys_onStore k body : keepsKeys (onStore k body).
Proof.
  intros m. unfold onStore. destruct (JsMap.get k (stores m)) eqn:E; simpl.
  - apply keys_set_present. apply has_get. eauto.
  - reflexivity.
Qed.

Lemma keepsKeys_forValues body : keepsKeys (onStores (forValues body)).
Proof. intros m. unfold onStores. simpl. apply forValues_keys. Qed.

Lemma keepsKeys_onDestroy {A} (c : M Effect Subject A) :
  keepsKeys (onDestroy c).
Proof. intros m. reflexivity. Qed.

Lemma keepsKeys_detach (c : Call unit) : keepsKeys c -> keepsKeys (detach c).
Proof. intros H m. unfold detach. simpl. apply H. Qed.

Lemma keepsKeys_refresh remote storeName : keepsKeys (refresh remote storeName).
Proof.
  unfold refresh. destruct storeName as [name|];
    [destruct (negb (name =? "")%string)|]; try apply keepsKeys_forValues.
  apply keepsKeys_bind; [apply keepsKeys_attempt|].
  intros _. apply keepsKeys_onStore.
Qed.

Lemma keepsKeys_reset : keepsKeys reset.
Proof. apply keepsKeys_forValues. Qed.

Lemma keepsKeys_destroy : keepsKeys destroy.
Proof.
  unfold destroy. apply keepsKeys_bind; [apply keepsKeys_reset|]. intros _.
  apply keepsKeys_bind; intros; apply keepsKeys_onDestroy.
Qed.

Lemma keepsKeys_set storeName value : keepsKeys (set storeName value).
Proof.
  unfold set. apply keepsKeys_bind; [apply keepsKeys_read|]. intros m.
  destruct (JsMap.has storeName (stores m));
    [apply keepsKeys_onStore | apply keepsKeys_ret].
Qed.

Lemma keepsKeys_emit remote e : keepsKeys (emit remote e).
Proof.
  intros m. rewrite emit_run. destruct (routed e m); [|reflexivity].
  destruct e; unfold route.
  - apply (keepsKeys_detach (@keepsKeys_refresh remote None)).
  - apply keepsKeys_set.
  - apply keepsKeys_set.
  - apply (keepsKeys_detach (@keepsKeys_refresh remote _)).
Qed.

Lemma keepsKeys_refresh_start storeName : keepsKeys (refresh_start storeName).
Proof.
  assert (keepsKeys
    (bind read (fun m : StateManager =>
       match JsMap.keys (stores m) with
       | [] => ret None
       | k :: rest =>
           bind (onStore k Store.refresh_begin)
             (fun _ => ret (Some (mkPending k rest)))
       end))) as Hall.
  { apply keepsKeys_bind; [apply keepsKeys_read|]. intros m.
    destruct (JsMap.keys (stores m)) as [|k rest]; [apply keepsKeys_ret|].
    apply keepsKeys_bind; [apply keepsKeys_onStore|]. intros _. apply keepsKeys_ret. }
  unfold refresh_start. destruct storeName as [name|];
    [destruct (negb (name =? "")%string)|]; try exact Hall.
  apply keepsKeys_bind; [apply keepsKeys_attempt|]. intros _.
  apply keepsKeys_bind; [apply keepsKeys_onStore|]. intros _. apply keepsKeys_ret.
Qed.

Lemma keepsKeys_refresh_resume p answer : keepsKeys (refresh_resume p answer).
Proof.
  unfold refresh_resume. apply keepsKeys_bind; [apply keepsKeys_onStore|].
  intros _. destruct (remaining p) as [|k rest]; [apply keepsKeys_ret|].
  apply keepsKeys_bind; [apply keepsKeys_onStore|]. intros _. apply keepsKeys_ret.
Qed.

Lemma perform_keys (op : Op) (m : StateManager) :
  JsMap.keys (stores (perform op m)) = JsMap.keys (stores m).
Proof.
  destruct op; simpl; try reflexivity.
  - apply keepsKeys_refresh.
  - apply keepsKeys_refresh_start.
  - apply keepsKeys_refresh_resume.
  - apply keepsKeys_reset.
  - apply keepsKeys_destroy.
  - apply keepsKeys_emit.
Qed.

Lemma instantiate_keys (types : list StoreType) (acc : JsMap.t Store.t) k :
  In k (JsMap.keys (instantiate types acc)) <->
  In k (map config_name types) \/ In k (JsMap.keys acc).
Proof.
  revert acc. induction types as [|type rest IH]; intros acc; simpl.
  - tauto.
  - rewrite IH, keys_set_In. unfold getStoreNameByType. intuition congruence.
Qed.

(** C9: whatever is done to a manager, in whatever order (the public
    operations, the steps of a suspended [refresh], the events of the
    client), the names in its map stay the same, in the same order; the
    names the constructor leaves are those of the store types it is
    given, and nothing else. *)
Theorem registered_names_fixed :
  (forall ops m,
     JsMap.keys (stores (performAll ops m)) = JsMap.keys (stores m)) /\
  (forall types k,
     In k (JsMap.keys (stores (constructor types))) <->
     In k (map config_name types)).
Proof.
  split.
  - intros ops. unfold performAll.
    induction ops as [|op ops IH]; intros m; simpl; [reflexivity|].
    rewrite IH. apply perform_keys.
  - intros types k. unfold constructor, initialize, bind, read, write. simpl.
    rewrite instantiate_keys. simpl. tauto.
Qed.

(* ===================================================================== *)
(** ** [select] and [destroy] *)
(* ===================================================================== *)

Lemma select_run (nameOrType : Ident) (key : option string) (m : StateManager)
    (obs : Observable) :
  select nameOrType key m = inr obs ->
  obs = mkObservable (Changes (resolve nameOrType) key) [] /\
  hasStore nameOrType m = true.
Proof.
  unfold select. destruct (hasStore nameOrType m) eqn:H.
  - destruct (getStore_found _ _ H) as [s [Hs _]]. rewrite Hs.
    intros E. inversion E. split; reflexivity.
  - rewrite (getStore_missing _ _ H). discriminate.
Qed.

Lemma received_app obs m (tr tr' : list Effect) :
  received obs m (tr ++ tr') = received obs m tr ++ received obs m tr'.
Proof. apply flat_map_app. Qed.

Lemma received_reset (k : string) (key : option string) (m : StateManager)
    (entries : JsMap.t Store.t) (s : Store.t) :
  JsMap.get k entries = Some s ->
  In (project key (Store.default s))
    (received (mkObservable (Changes k key) []) m (flat_map resetTrace entries)).
Proof.
  induction entries as [|[k' s'] rest IH]; simpl; [discriminate|].
  destruct (String.eqb_spec k' k) as [->|Hne].
  - intros E. inversion E; subst. unfold delivered. cbn [source pipe forallb].
    rewrite String.eqb_refl. left. reflexivity.
  - intros E. unfold delivered. cbn [source pipe forallb].
    destruct (String.eqb_spec k k') as [->|_]; [congruence|].
    apply IH. exact E.
Qed.



(* ===================================================================== *)
(** ** [refresh] step by step *)
(* ===================================================================== *)

Lemma bind_run {A B} (c : Call A) (k : A -> Call B) (m m' : StateManager)
    (a : A) (t : list Effect) :
  c m = mkOutcome (inr a) m' t ->
  bind c k m =
  mkOutcome (result (k a m')) (final (k a m')) (t ++ trace (k a m')).
Proof. intros H. unfold bind. rewrite H. reflexivity. Qed.

Lemma bind_throw {A B} (c : Call A) (k : A -> Call B) (m m' : StateManager)
    (e : Exn) (t : list Effect) :
  c m = mkOutcome (inl e) m' t -> bind c k m = mkOutcome (inl e) m' t.
Proof. intros H. unfold bind. rewrite H. reflexivity. Qed.

(** A method run on the store of an entry no earlier entry shadows. *)
Lemma onStore_at (pre rest : JsMap.t Store.t) (k : string) (s : Store.t)
    (d : Subject) (body : Store.Task unit) :
  ~ In k (JsMap.keys pre) ->
  onStore k body (mkStateManager (pre ++ (k, s) :: rest) d) =
  mkOutcome (result (body s))
    (mkStateManager (pre ++ (k, final (body s)) :: rest) d)
    (map (At k) (trace (body s))).
Proof.
  intros Hn. unfold onStore. cbn [stores destroy_].
  rewrite get_app_skip by exact Hn. cbn [JsMap.get].
  rewrite String.eqb_refl. rewrite set_app_skip by exact Hn.
  cbn [JsMap.set]. rewrite String.eqb_refl. reflexivity.
Qed.

Lemma refresh_drive_unfold (remote : Remote) (k : string) (rest : list string) :
  refresh_drive remote k rest =
  bind (refresh_resume (mkPending k rest) (remote k))
    (fun _ => match rest with
              | [] => ret tt
              | k' :: rest' => refresh_drive remote k' rest'
              end).
Proof. destruct rest; reflexivity. Qed.

Lemma NoDup_keys_front (pre : list string) (k : string) (rest : list string) :
  NoDup (pre ++ k :: rest) -> ~ In k pre.
Proof.
  intros H Hin. apply NoDup_remove_2 in H. apply H.
  apply in_or_app. left. exact Hin.
Qed.

Section Stepwise.

Variable remote : Remote.

(** The loop of [refresh()], one suspension at a time, from the moment
    it reaches the entry [(k, s)]: it does to the map what the loop run
    in one go does. *)
Lemma drive_forValues (rest pre : JsMap.t Store.t) (k : string) (s : Store.t)
    (d : Subject) :
  NoDup (JsMap.keys pre ++ k :: JsMap.keys rest) ->
  bind (onStore k Store.refresh_begin)
    (fun _ => refresh_drive remote k (JsMap.keys rest))
    (mkStateManager (pre ++ (k, s) :: rest) d)
  = mkOutcome
      (result (forValues (fun k => Store.refresh (remote k)) ((k, s) :: rest)))
      (mkStateManager
         (pre ++ final (forValues (fun k => Store.refresh (remote k))
                          ((k, s) :: rest))) d)
      (trace (forValues (fun k => Store.refresh (remote k)) ((k, s) :: rest))).
Proof.
  revert pre k s. induction rest as [|[k' s''] rest' IH]; intros pre k s Hnd.
  - pose proof (NoDup_keys_front _ _ _ Hnd) as Hk.
    erewrite bind_run
      by (rewrite onStore_at by exact Hk; rewrite Store_refresh_begin_run;
          reflexivity).
    rewrite refresh_drive_unfold. unfold refresh_resume. cbn [awaiting remaining JsMap.keys map].
    destruct (remote k) as [v|e] eqn:Hr.
    + erewrite forValues_pulled by exact Hr.
      erewrite (@bind_run _ _ (bind _ _))
        by (erewrite bind_run
              by (rewrite onStore_at by exact Hk; rewrite Store_settle_pulled;
                  reflexivity);
            reflexivity).
      reflexivity.
    + erewrite forValues_rejected by exact Hr.
      erewrite (@bind_throw _ _ (bind _ _))
        by (erewrite bind_throw
              by (rewrite onStore_at by exact Hk; rewrite Store_settle_rejected;
                  reflexivity);
            reflexivity).
      reflexivity.
  - pose proof (NoDup_keys_front _ _ _ Hnd) as Hk.
    erewrite bind_run
      by (rewrite onStore_at by exact Hk; rewrite Store_refresh_begin_run;
          reflexivity).
    rewrite refresh_drive_unfold. unfold refresh_resume.
    cbn [awaiting remaining JsMap.keys map fst].
    destruct (remote k) as [v|e] eqn:Hr.
    + erewrite forValues_pulled by exact Hr.
      assert (NoDup (JsMap.keys (pre ++ [(k, Store.mk (Store.default s) v)])
                     ++ k' :: JsMap.keys rest')) as Hnd'.
      { unfold JsMap.keys in *. rewrite map_app. cbn [map fst].
        rewrite <- app_assoc. exact Hnd. }
      pose proof (NoDup_keys_front _ _ _ Hnd') as Hk'.
      specialize (IH (pre ++ [(k, Store.mk (Store.default s) v)]) k' s'' Hnd').
      erewrite bind_run in IH
        by (rewrite onStore_at by exact Hk'; rewrite Store_refresh_begin_run;
            reflexivity).
      rewrite <- !app_assoc in IH. cbn [app] in IH.
      set (o' := forValues (fun k => Store.refresh (remote k)) ((k', s'') :: rest')) in *.
      pose proof (f_equal result IH) as IHr.
      pose proof (f_equal final IH) as IHf.
      pose proof (f_equal trace IH) as IHt.
      clear IH.
      erewrite (@bind_run _ _ (bind _ _)).
      2:{ erewrite bind_run
            by (rewrite onStore_at by exact Hk; rewrite Store_settle_pulled;
                reflexivity).
          erewrite bind_run.
          2:{ cbn [final]. 
              change (pre ++ (k, Store.mk (Store.default s) v) :: (k', s'') :: rest')
                with (pre ++ [(k, Store.mk (Store.default s) v)] ++ (k', s'') :: rest').
              rewrite app_assoc.
              rewrite onStore_at by exact Hk'. rewrite Store_refresh_begin_run.
              rewrite <- app_assoc. reflexivity. }
          reflexivity. }
      unfold ret. cbn [final trace result app].
      cbn [final trace result app] in IHr, IHf, IHt.
      unfold JsMap.keys in IHr, IHf, IHt.
      rewrite IHr, IHf, <- IHt. reflexivity.
    + erewrite forValues_rejected by exact Hr.
      erewrite (@bind_throw _ _ (bind _ _))
        by (erewrite bind_throw
              by (rewrite onStore_at by exact Hk; rewrite Store_settle_rejected;
                  reflexivity);
            reflexivity).
      reflexivity.
Qed.

End Stepwise.

Lemma set_get_same {V} (m : JsMap.t V) (k : string) (v : V) :
  JsMap.get k m = Some v -> JsMap.set k v m = m.
Proof.
  induction m as [|[k' v'] rest IH]; simpl; [discriminate|].
  destruct (String.eqb_spec k' k) as [->|Hne].
  - intros E. inversion E. reflexivity.
  - intros E. rewrite (IH E). reflexivity.
Qed.

Lemma onStore_begin_run (k : string) (m : StateManager) (s : Store.t) :
  JsMap.get k (stores m) = Some s ->
  onStore k Store.refresh_begin m =
  mkOutcome (inr tt) m [At k (Called MRefresh); At k Request].
Proof.
  intros H. erewrite onStore_run by exact H.
  rewrite Store_refresh_begin_run. cbn [result final trace map].
  rewrite (set_get_same _ _ H). destruct m. reflexivity.
Qed.

(** [refresh] run one suspension at a time, every pull answered as soon
    as it is in flight, is [refresh] run in one go. *)
Lemma refresh_stepwise_refresh (remote : Remote) (storeName : option string)
    (m : StateManager) :
  JsMap.distinct (JsMap.keys (stores m)) = true ->
  refresh_stepwise remote storeName m = refresh remote storeName m.
Proof.
  intros Hd.
  assert (refresh_stepwise remote None m = refresh remote None m) as Hall.
  { unfold refresh_stepwise, refresh, refresh_start, onStores.
    destruct m as [entries d]. cbn [stores destroy_] in *.
    destruct entries as [|[k s] rest].
    - reflexivity.
    - apply distinct_NoDup in Hd.
      pose proof (@drive_forValues remote rest [] k s d Hd) as Hdrive.
      cbn [app] in Hdrive. cbn [result final trace].
      rewrite <- Hdrive. clear Hdrive.
      cbn [app JsMap.keys map fst].
      erewrite (@bind_run _ _ (bind read _)).
      2:{ erewrite bind_run by reflexivity.
          cbn [stores JsMap.keys map fst].
          erewrite bind_run
            by (apply (@onStore_begin_run k _ s); cbn [stores JsMap.get];
                rewrite String.eqb_refl; reflexivity).
          reflexivity. }
      erewrite (@bind_run _ _ (onStore k _))
        by (apply (@onStore_begin_run k _ s); cbn [stores JsMap.get];
            rewrite String.eqb_refl; reflexivity).
      unfold ret. cbn [result final trace app awaiting remaining].
      reflexivity. }
  destruct storeName as [name|]; [|exact Hall].
  destruct (String.eqb_spec name "") as [->|Hne]; [exact Hall|].
  destruct (JsMap.get name (stores m)) as [s|] eqn:Hs.
  - erewrite refresh_named_run by eassumption.
    assert (getStore (ByName name) m = inr s) as Hg.
    { assert (hasStore (ByName name) m = true) as Hh by (apply has_get; eauto).
      destruct (getStore_found _ _ Hh) as [s' [Hg Hs']].
      cbn [resolve] in Hs'. congruence. }
    unfold refresh_stepwise, refresh_start.
    destruct (String.eqb_spec name "") as [->|_]; [congruence|]. cbn [negb].
    erewrite (@bind_run _ _ (bind (attempt _) _)).
    2:{ erewrite bind_run by (unfold attempt; rewrite Hg; reflexivity).
        erewrite bind_run by (apply (@onStore_begin_run name _ s); exact Hs).
        reflexivity. }
    unfold ret. cbn [result final trace app awaiting remaining].
    rewrite refresh_drive_unfold. unfold refresh_resume.
    cbn [awaiting remaining].
    unfold bind. cbv zeta.
    erewrite onStore_run by exact Hs.
    destruct (remote name) as [v|e].
    + rewrite Store_settle_pulled. reflexivity.
    + rewrite Store_settle_rejected. reflexivity.
  - assert (hasStore (ByName name) m = false) as Hh by (apply has_false_get; exact Hs).
    rewrite refresh_unregistered by assumption.
    unfold refresh_stepwise, refresh_start.
    destruct (String.eqb_spec name "") as [->|_]; [congruence|]. cbn [negb].
    erewrite (@bind_throw _ _ (bind (attempt _) _)).
    2:{ erewrite bind_throw
          by (unfold attempt; rewrite (getStore_missing _ _ Hh); reflexivity).
        reflexivity. }
    reflexivity.
Qed.

(* ===================================================================== *)
(** ** More on event routing *)
(* ===================================================================== *)

(** X1: the subscriptions on 'event:reset' and on 'event:state' have the
    same pipe and the same callback: a reset notification does exactly
    what the state delta with the same payload does. *)
Theorem reset_event_as_state_event (remote : Remote) (evt : StateUpdate.t)
    (m : StateManager) :
  emit remote (EventReset evt) m = emit remote (EventState evt) m.
Proof. rewrite !emit_run. reflexivity. Qed.

(** X2: [filterHasStore()] drops every event that names a store the map
    does not have, whatever its kind: the state is the same, nothing is
    called, nothing is pulled, nothing is thrown and no promise rejects.
    In particular an entity-changed event never reaches [getStore] with
    an unregistered name. *)
Theorem unregistered_name_dropped (remote : Remote) (e : ClientEvent)
    (name : string) (m : StateManager) :
  evtName e = Some name ->
  hasStore (ByName name) m = false ->
  emit remote e m = mkOutcome (inr tt) m [].
Proof.
  intros Hname Hunk. rewrite emit_run. unfold routed.
  rewrite Hname, Hunk, andb_false_r. reflexivity.
Qed.

Lemma unregistered_name_dropped_witness :
  emit Sample.online (EventEntity (EntityEvent.mk "tempo")) Sample.player
  = mkOutcome (inr tt) Sample.player [].
Proof.
  apply (@unregistered_name_dropped Sample.online
           (EventEntity (EntityEvent.mk "tempo")) "tempo" Sample.player);
    reflexivity.
Defined.

Lemma forValues_no_Unhandled body (entries : JsMap.t Store.t) x :
  ~ In (Unhandled x) (trace (forValues body entries)).
Proof.
  induction entries as [|[k s] rest IH]; cbn [forValues]; [intros []|].
  destruct (result (body k s)); cbn [trace].
  - rewrite in_map_iff. intros (se & E & _). discriminate.
  - rewrite in_app_iff, in_map_iff. intros [(se & E & _)|H];
      [discriminate | exact (IH H)].
Qed.

Lemma onStore_no_Unhandled k body (m : StateManager) x :
  ~ In (Unhandled x) (trace (onStore k body m)).
Proof.
  unfold onStore. destruct (JsMap.get k (stores m)); cbn [trace].
  - rewrite in_map_iff. intros (se & E & _). discriminate.
  - intros [].
Qed.

Lemma refresh_no_Unhandled (remote : Remote) (storeName : option string)
    (m : StateManager) x :
  ~ In (Unhandled x) (trace (refresh remote storeName m)).
Proof.
  assert (forall m, ~ In (Unhandled x) (trace (refresh remote None m))) as Hall.
  { intros m0. unfold refresh, onStores. cbn [trace].
    apply forValues_no_Unhandled. }
  destruct storeName as [name|]; [|apply Hall].
  destruct (String.eqb_spec name "") as [->|Hne]; [apply Hall|].
  destruct (JsMap.get name (stores m)) as [s|] eqn:Hs.
  - erewrite refresh_registered by eassumption. apply onStore_no_Unhandled.
  - rewrite refresh_unregistered; [intros [] | exact Hne |].
    apply has_false_get. exact Hs.
Qed.

Lemma set_no_Unhandled (name : string) (v : JsValue) (m : StateManager) x :
  ~ In (Unhandled x) (trace (set name v m)).
Proof.
  destruct (JsMap.get name (stores m)) as [s|] eqn:Hs.
  - erewrite set_registered by exact Hs. cbn [trace In].
    intros [H|[H|[]]]; discriminate.
  - unfold set, bind, read. cbn [result final trace].
    rewrite (proj2 (has_false_get _ _) Hs). intros [].
Qed.

Lemma detach_Unhandled (c : Call unit) (m : StateManager) x :
  (forall y, ~ In (Unhandled y) (trace (c m))) ->
  In (Unhandled x) (trace (detach c m)) <-> result (c m) = inl x.
Proof.
  intros Hc. unfold detach. cbn [trace]. rewrite in_app_iff.
  destruct (result (c m)) as [e|[]]; cbn [In]; split.
  - intros [H|[H|[]]]; [destruct (Hc _ H) | congruence].
  - intros H. right. left. congruence.
  - intros [H|[]]. destruct (Hc _ H).
  - discriminate.
Qed.

(** X3: the delivery of an event never throws into the client, whatever
    the stores and the remote do.  The callbacks of 'connect' and
    'event:entity' call [refresh] and drop its promise: when that
    [refresh] rejects, the rejection stays unhandled, and this is the
    only way an event leaves an unhandled rejection. *)
Theorem event_delivery_never_throws (remote : Remote) (e : ClientEvent)
    (m : StateManager) :
  result (emit remote e m) = inr tt /\
  (forall x,
     In (Unhandled x) (trace (emit remote e m)) <->
     routed e m = true /\ refreshing e = true /\
     result (refresh remote (evtName e) m) = inl x).
Proof.
  rewrite emit_run. destruct (routed e m) eqn:Hrouted.
  - destruct e as [|evt|evt|evt]; unfold route; cbn [refreshing evtName].
    + split; [reflexivity|]. intros x.
      rewrite detach_Unhandled by (intros y; apply refresh_no_Unhandled).
      tauto.
    + split.
      * destruct (JsMap.get (StateUpdate.name evt) (stores m)) as [s|] eqn:Hs.
        -- erewrite set_registered by exact Hs. reflexivity.
        -- unfold set, bind, read. cbn [result final trace].
           rewrite (proj2 (has_false_get _ _) Hs). reflexivity.
      * intros x. split; [intros H; destruct (set_no_Unhandled _ _ _ _ H)|].
        intros (_ & H & _). discriminate.
    + split.
      * destruct (JsMap.get (StateUpdate.name evt) (stores m)) as [s|] eqn:Hs.
        -- erewrite set_registered by exact Hs. reflexivity.
        -- unfold set, bind, read. cbn [result final trace].
           rewrite (proj2 (has_false_get _ _) Hs). reflexivity.
      * intros x. split; [intros H; destruct (set_no_Unhandled _ _ _ _ H)|].
        intros (_ & H & _). discriminate.
    + split; [reflexivity|]. intros x.
      rewrite detach_Unhandled by (intros y; apply refresh_no_Unhandled).
      tauto.
  - split; [reflexivity|]. intros x. cbn [trace In]. split; [intros []|].
    intros (H & _). discriminate.
Qed.

(* ===================================================================== *)
(** ** Construction *)
(* ===================================================================== *)

Lemma constructor_run (types : list StoreType) :
  constructor types =
  mkStateManager (instantiate types JsMap.empty) (mkSubject false false).
Proof. reflexivity. Qed.

Lemma set_absent {V} (m : JsMap.t V) (k : string) (v : V) :
  ~ In k (JsMap.keys m) -> JsMap.set k v m = m ++ [(k, v)].
Proof.
  induction m as [|[k' v'] rest IH]; simpl; [reflexivity|].
  intros Hn. destruct (String.eqb_spec k' k) as [->|Hne].
  - exfalso. apply Hn. left. reflexivity.
  - rewrite IH; [reflexivity|]. intros H. apply Hn. right. exact H.
Qed.

Lemma instantiate_app (types types' : list StoreType) (acc : JsMap.t Store.t) :
  instantiate (types ++ types') acc = instantiate types' (instantiate types acc).
Proof.
  revert acc. induction types as [|t rest IH]; intros acc; simpl;
    [reflexivity | apply IH].
Qed.

(** Types with fresh, distinct names are appended in the order of the
    list. *)
Lemma instantiate_distinct (types : list StoreType) (acc : JsMap.t Store.t) :
  NoDup (JsMap.keys acc ++ map config_name types) ->
  instantiate types acc = acc ++ map instance types.
Proof.
  revert acc. induction types as [|t rest IH]; intros acc Hnd; simpl.
  - symmetry. apply app_nil_r.
  - pose proof (NoDup_keys_front _ _ _ Hnd) as Hfresh.
    unfold getStoreNameByType. rewrite set_absent by exact Hfresh.
    rewrite IH.
    + rewrite <- app_assoc. reflexivity.
    + unfold JsMap.keys in *. rewrite map_app. cbn [map fst].
      rewrite <- app_assoc. exact Hnd.
Qed.

Lemma get_instance (types : list StoreType) (t : StoreType) :
  NoDup (map config_name types) ->
  In t types ->
  JsMap.get (config_name t) (map instance types)
    = Some (Store.create (initialState t)).
Proof.
  induction types as [|t0 rest IH]; intros Hnd Hin; [destruct Hin|].
  inversion Hnd as [|? ? Hfresh Hrest]; subst.
  cbn [map instance JsMap.get]. unfold getStoreNameByType.
  destruct Hin as [->|Hin].
  - rewrite String.eqb_refl. reflexivity.
  - destruct (String.eqb_spec (config_name t0) (config_name t)) as [E|_].
    + exfalso. apply Hfresh. rewrite E. apply in_map. exact Hin.
    + apply IH; assumption.
Qed.

Lemma get_instantiate_other (types : list StoreType) (acc : JsMap.t Store.t)
    (name : string) :
  ~ In name (map config_name types) ->
  JsMap.get name (instantiate types acc) = JsMap.get name acc.
Proof.
  revert acc. induction types as [|t rest IH]; intros acc Hn; simpl;
    [reflexivity|].
  rewrite IH by (intros H; apply Hn; right; exact H).
  apply get_set_other. unfold getStoreNameByType.
  intros E. apply Hn. left. exact E.
Qed.

(** X4: when the store types given to the constructor have distinct
    names, the registry order is the order of the list, every type of
    the list resolves, by type, to a store that holds the initial state
    of that type (or the sub-field asked for), and [destroy$] is fresh. *)
Theorem constructor_registers_in_order (types : list StoreType) :
  JsMap.distinct (map config_name types) = true ->
  JsMap.keys (stores (constructor types)) = map config_name types /\
  destroy_ (constructor types) = mkSubject false false /\
  (forall type key,
     In type types ->
     hasStore (ByType type) (constructor types) = true /\
     get (ByType type) key (constructor types)
       = inr (project key (initialState type))).
Proof.
  intros Hd. apply distinct_NoDup in Hd. rewrite constructor_run.
  rewrite instantiate_distinct by exact Hd.
  unfold JsMap.empty. cbn [app stores destroy_].
  split.
  { unfold JsMap.keys. rewrite map_map. reflexivity. }
  split; [reflexivity|].
  intros type key Hin.
  pose proof (get_instance types type Hd Hin) as Hget.
  split.
  - apply has_get. eexists. exact Hget.
  - erewrite get_read by exact Hget. reflexivity.
Qed.

Lemma constructor_registers_in_order_witness :
  JsMap.keys (stores (constructor [Sample.volume; Sample.playback]))
    = ["volume"; "playback"] /\
  get (ByType Sample.playback) None
    (constructor [Sample.volume; Sample.playback]) = inr (JStr "stopped").
Proof.
  destruct (@constructor_registers_in_order [Sample.volume; Sample.playback])
    as (Hkeys & _ & Hget); [reflexivity|].
  split; [exact Hkeys|].
  apply (Hget Sample.playback None). right. left. reflexivity.
Defined.

(** X5: a store type whose name is already registered does not add an
    entry: its instance replaces the earlier one where that one stands,
    so the registry order is unchanged and the last type of a name wins.
    Resolution is by name alone: every type that carries that name,
    listed or not, resolves to the surviving instance. *)
Theorem duplicate_name_replaces_in_place (types : list StoreType)
    (type other : StoreType) (key : option string) :
  In (config_name type) (map config_name types) ->
  config_name other = config_name type ->
  JsMap.keys (stores (constructor (types ++ [type])))
    = JsMap.keys (stores (constructor types)) /\
  get (ByType other) key (constructor (types ++ [type]))
    = inr (project key (initialState type)) /\
  get (ByName (config_name type)) key (constructor (types ++ [type]))
    = inr (project key (initialState type)).
Proof.
  intros Hin Hsame. rewrite !constructor_run, instantiate_app.
  cbn [instantiate stores].
  assert (JsMap.has (getStoreNameByType type) (instantiate types JsMap.empty) = true)
    as Hhas.
  { apply has_keys. apply instantiate_keys. left. exact Hin. }
  split; [apply keys_set_present; exact Hhas|].
  assert (forall id, resolve id = config_name type ->
            get id key
              (mkStateManager
                 (JsMap.set (getStoreNameByType type)
                    (Store.create (initialState type))
                    (instantiate types JsMap.empty))
                 (mkSubject false false))
            = inr (project key (initialState type))) as Hget.
  { intros id Hid.
    apply (@get_read id key _ (Store.create (initialState type))).
    cbn [stores]. rewrite Hid. apply get_set_same. }
  split; apply Hget; [exact Hsame | reflexivity].
Qed.

Lemma duplicate_name_replaces_in_place_witness :
  JsMap.keys (stores (constructor ([Sample.volume; Sample.playback] ++ [loudVolume])))
    = JsMap.keys (stores (constructor [Sample.volume; Sample.playback])) /\
  get (ByType Sample.volume) None
    (constructor ([Sample.volume; Sample.playback] ++ [loudVolume]))
    = inr (JNum 99).
Proof.
  destruct (@duplicate_name_replaces_in_place [Sample.volume; Sample.playback]
              loudVolume Sample.volume None)
    as (Hkeys & Hget & _); [left; reflexivity | reflexivity |].
  split; [exact Hkeys | exact Hget].
Defined.

Lemma pristine_set (m : JsMap.t Store.t) (k : string) (s : Store.t) :
  Store.value s = Store.default s ->
  Forall pristine m -> Forall pristine (JsMap.set k s m).
Proof.
  intros Hs. induction m as [|[k' s'] rest IH]; intros Hm; simpl.
  - constructor; [exact Hs | constructor].
  - inversion Hm as [|? ? Hhead Hrest]; subst.
    destruct (String.eqb k' k); constructor; auto.
Qed.

Lemma pristine_instantiate (types : list StoreType) (acc : JsMap.t Store.t) :
  Forall pristine acc -> Forall pristine (instantiate types acc).
Proof.
  revert acc. induction types as [|t rest IH]; intros acc Hacc; simpl;
    [exact Hacc|].
  apply IH. apply pristine_set; [reflexivity | exact Hacc].
Qed.

Lemma pristine_reset (entries : JsMap.t Store.t) :
  Forall pristine entries -> map resetEntry entries = entries.
Proof.
  induction 1 as [|[k [d v]] rest Hhead _ IH]; simpl; [reflexivity|].
  unfold pristine in Hhead. simpl in Hhead. subst v.
  unfold resetEntry at 1. simpl. rewrite IH. reflexivity.
Qed.

Lemma constructor_pristine (types : list StoreType) :
  Forall pristine (stores (constructor types)).
Proof.
  rewrite constructor_run. cbn [stores].
  apply pristine_instantiate. constructor.
Qed.

(** X6: a manager as the constructor leaves it holds every store at its
    default, with or without repeated names in the list of types:
    [reset()] called first thing leaves the state as it is. *)
Theorem reset_after_construction (types : list StoreType) :
  final (reset (constructor types)) = constructor types /\
  Forall pristine (stores (constructor types)).
Proof.
  split; [|apply constructor_pristine].
  rewrite reset_run. cbn [final].
  rewrite (pristine_reset (constructor_pristine types)).
  destruct (constructor types). reflexivity.
Qed.

(* ===================================================================== *)
(** ** What [refresh] leaves in the stores *)
(* ===================================================================== *)

Lemma get_pulled (remote : Remote) (entries : JsMap.t Store.t) (k : string) :
  JsMap.get k (map (pulled remote) entries) =
  match JsMap.get k entries with
  | Some s => Some (snd (pulled remote (k, s)))
  | None => None
  end.
Proof.
  induction entries as [|[k' s'] rest IH]; [reflexivity|].
  cbn [map JsMap.get pulled fst snd].
  destruct (String.eqb_spec k' k) as [->|_]; [reflexivity | exact IH].
Qed.

Lemma forValues_all_pulled (remote : Remote) (entries : JsMap.t Store.t) :
  (forall k, In k (JsMap.keys entries) -> succeeds remote k) ->
  result (forValues (fun k => Store.refresh (remote k)) entries) = inr tt /\
  final (forValues (fun k => Store.refresh (remote k)) entries)
    = map (pulled remote) entries.
Proof.
  induction entries as [|[k s] rest IH]; intros Hall; [split; reflexivity|].
  destruct (Hall k (or_introl eq_refl)) as [v Hv].
  erewrite forValues_pulled by exact Hv. cbn [result final].
  destruct IH as [Hr Hf]; [intros k' Hk'; apply Hall; right; exact Hk'|].
  split; [exact Hr|]. rewrite Hf. cbn [map]. f_equal.
  unfold pulled. cbn [fst snd]. rewrite Hv. reflexivity.
Qed.

(** X7: when the remote answers the pull of every registered store,
    [refresh()] resolves and every store holds what the remote answered
    for it, so that [get], by name or by type, reads that answer (or its
    sub-field); the names, their order and the defaults are as before. *)
Theorem refresh_all_installs_answers (remote : Remote) (m : StateManager) :
  (forall k, hasStore (ByName k) m = true -> succeeds remote k) ->
  result (refresh remote None m) = inr tt /\
  stores (final (refresh remote None m)) = map (pulled remote) (stores m) /\
  defaults (stores (final (refresh remote None m))) = defaults (stores m) /\
  (forall nameOrType key v,
     hasStore nameOrType m = true ->
     remote (resolve nameOrType) = Pulled v ->
     get nameOrType key (final (refresh remote None m)) = inr (project key v)).
Proof.
  intros Hall.
  destruct (@forValues_all_pulled remote (stores m)) as [Hr Hf].
  { intros k Hk. apply Hall. apply has_keys. exact Hk. }
  assert (stores (final (refresh remote None m)) = map (pulled remote) (stores m))
    as Hstores by (unfold refresh, onStores; cbn [final stores]; exact Hf).
  split; [unfold refresh, onStores; cbn [result]; exact Hr|].
  split; [exact Hstores|]. split.
  - rewrite Hstores. unfold defaults. rewrite map_map. apply map_ext.
    intros [k s]. unfold pulled. cbn [fst snd]. destruct (remote k); reflexivity.
  - intros id key v Hreg Hv.
    destruct (proj1 (has_get _ _) Hreg) as [s Hs].
    apply (@get_read id key _ (Store.mk (Store.default s) v)).
    rewrite Hstores, get_pulled, Hs. unfold pulled. cbn [fst snd].
    rewrite Hv. reflexivity.
Qed.

Lemma refresh_all_installs_answers_witness :
  result (refresh Sample.online None Sample.player) = inr tt /\
  get (ByType Sample.playback) None
    (final (refresh Sample.online None Sample.player)) = inr (JStr "playing").
Proof.
  destruct (@refresh_all_installs_answers Sample.online Sample.player)
    as (Hr & _ & _ & Hget).
  { intros k _. unfold succeeds, Sample.online.
    destruct (String.eqb k "volume"); eauto. }
  split; [exact Hr|].
  apply (Hget (ByType Sample.playback) None (JStr "playing")); reflexivity.
Defined.

(** X8: [refresh(name)], for a registered name that is not the empty
    string and a pull the remote answers, resolves after one call and
    one pull on that store, and [get(name)] then reads the answer. *)
Theorem refresh_named_installs_answer (remote : Remote) (name : string)
    (m : StateManager) (key : option string) (v : JsValue) :
  name <> "" ->
  hasStore (ByName name) m = true ->
  remote name = Pulled v ->
  result (refresh remote (Some name) m) = inr tt /\
  refreshed (trace (refresh remote (Some name) m)) = [name] /\
  requests (trace (refresh remote (Some name) m)) = [name] /\
  get (ByName name) key (final (refresh remote (Some name) m))
    = inr (project key v).
Proof.
  intros Hne Hreg Hv.
  destruct (proj1 (has_get _ _) Hreg) as [s Hs]. cbn [resolve] in Hs.
  erewrite refresh_named_run by eassumption. rewrite Hv.
  cbn [result final trace].
  repeat split.
  apply (@get_read (ByName name) key _ (Store.mk (Store.default s) v)).
  apply get_set_same.
Qed.

Lemma refresh_named_installs_answer_witness :
  get (ByName "volume") None
    (final (refresh Sample.online (Some "volume") Sample.player))
  = inr (JNum 80).
Proof.
  destruct (@refresh_named_installs_answer Sample.online "volume"
              Sample.player None (JNum 80))
    as (_ & _ & _ & Hget); [discriminate | reflexivity | reflexivity |].
  exact Hget.
Defined.

(** X9: [refresh(name)], for an unregistered name that is not the empty
    string, rejects with the error of [getStore] before anything is
    done: no store method is called, nothing is pulled, and the state is
    the one before the call.  The suspended form agrees: no [await] is
    reached. *)
Theorem refresh_unknown_touches_nothing (remote : Remote) (name : string)
    (m : StateManager) :
  name <> "" ->
  hasStore (ByName name) m = false ->
  refresh remote (Some name) m = mkOutcome (inl (doesNotExist name)) m [] /\
  refresh_start (Some name) m = mkOutcome (inl (doesNotExist name)) m [].
Proof.
  intros Hne Hunk. split; [apply refresh_unregistered; assumption|].
  unfold refresh_start.
  destruct (String.eqb_spec name "") as [->|_]; [congruence|]. cbn [negb].
  erewrite bind_throw
    by (unfold attempt; rewrite (getStore_missing _ _ Hunk); reflexivity).
  reflexivity.
Qed.

Lemma refresh_unknown_touches_nothing_witness :
  refresh Sample.online (Some "tempo") Sample.player
  = mkOutcome (inl (Error "Store 'tempo' does not exist!")) Sample.player [].
Proof.
  destruct (@refresh_unknown_touches_nothing Sample.online "tempo" Sample.player)
    as [H _]; [discriminate | reflexivity |].
  exact H.
Defined.

(* ===================================================================== *)
(** ** The defaults never change *)
(* ===================================================================== *)

Lemma keepsDefault_set v : keepsDefault (Store.set v).
Proof. intros s. reflexivity. Qed.

Lemma keepsDefault_reset : keepsDefault Store.reset.
Proof. intros s. reflexivity. Qed.

Lemma keepsDefault_begin : keepsDefault Store.refresh_begin.
Proof. intros s. reflexivity. Qed.

Lemma keepsDefault_settle answer : keepsDefault (Store.refresh_settle answer).
Proof. intros s. destruct answer; reflexivity. Qed.

Lemma keepsDefault_refresh answer : keepsDefault (Store.refresh answer).
Proof. intros s. destruct answer; reflexivity. Qed.

Lemma defaults_set (m : JsMap.t Store.t) (k : string) (s s' : Store.t) :
  JsMap.get k m = Some s ->
  Store.default s' = Store.default s ->
  defaults (JsMap.set k s' m) = defaults m.
Proof.
  intros Hget Hd. induction m as [|[k0 s0] rest IH]; simpl in *; [discriminate|].
  destruct (String.eqb_spec k0 k) as [->|Hne]; simpl.
  - inversion Hget; subst. rewrite Hd. reflexivity.
  - rewrite (IH Hget). reflexivity.
Qed.

Lemma keepsDefaults_ret {A} (a : A) : keepsDefaults (ret a).
Proof. intros m. reflexivity. Qed.

Lemma keepsDefaults_read : keepsDefaults read.
Proof. intros m. reflexivity. Qed.

Lemma keepsDefaults_attempt {A} (f : StateManager -> Exn + A) :
  keepsDefaults (attempt f).
Proof. intros m. unfold attempt. destruct (f m); reflexivity. Qed.

Lemma keepsDefaults_bind {A B} (c : Call A) (k : A -> Call B) :
  keepsDefaults c -> (forall a, keepsDefaults (k a)) -> keepsDefaults (bind c k).
Proof.
  intros Hc Hk m. unfold bind. destruct (result (c m)) as [e|a]; cbn [final].
  - apply Hc.
  - rewrite Hk. apply Hc.
Qed.

Lemma keepsDefaults_onStore k body :
  keepsDefault body -> keepsDefaults (onStore k body).
Proof.
  intros Hb m. unfold onStore.
  destruct (JsMap.get k (stores m)) as [s|] eqn:E; cbn [final stores];
    [|reflexivity].
  eapply defaults_set; [exact E | apply Hb].
Qed.

Lemma forValues_defaults body (entries : JsMap.t Store.t) :
  (forall k, keepsDefault (body k)) ->
  defaults (final (forValues body entries)) = defaults entries.
Proof.
  intros Hb. induction entries as [|[k s] rest IH]; cbn [forValues];
    [reflexivity|].
  destruct (result (body k s)); cbn [final defaults map fst snd];
    rewrite Hb; [reflexivity|].
  f_equal. exact IH.
Qed.

Lemma keepsDefaults_forValues body :
  (forall k, keepsDefault (body k)) -> keepsDefaults (onStores (forValues body)).
Proof.
  intros Hb m. unfold onStores. cbn [final stores].
  apply forValues_defaults. exact Hb.
Qed.

Lemma keepsDefaults_onDestroy {A} (c : M Effect Subject A) :
  keepsDefaults (onDestroy c).
Proof. intros m. reflexivity. Qed.

Lemma keepsDefaults_detach (c : Call unit) :
  keepsDefaults c -> keepsDefaults (detach c).
Proof. intros H m. unfold detach. cbn [final]. apply H. Qed.

Lemma keepsDefaults_refresh remote storeName :
  keepsDefaults (refresh remote storeName).
Proof.
  assert (keepsDefaults
            (onStores (forValues (fun k => Store.refresh (remote k))))) as Hall
    by (apply keepsDefaults_forValues; intros k; apply keepsDefault_refresh).
  unfold refresh. destruct storeName as [name|];
    [destruct (negb (name =? "")%string)|]; try exact Hall.
  apply keepsDefaults_bind; [apply keepsDefaults_attempt|].
  intros _. apply keepsDefaults_onStore, keepsDefault_refresh.
Qed.

Lemma keepsDefaults_reset : keepsDefaults reset.
Proof. apply keepsDefaults_forValues. intros _. apply keepsDefault_reset. Qed.

Lemma keepsDefaults_destroy : keepsDefaults destroy.
Proof.
  unfold destroy. apply keepsDefaults_bind; [apply keepsDefaults_reset|].
  intros _. apply keepsDefaults_bind; intros; apply keepsDefaults_onDestroy.
Qed.

Lemma keepsDefaults_set storeName value : keepsDefaults (set storeName value).
Proof.
  unfold set. apply keepsDefaults_bind; [apply keepsDefaults_read|]. intros m.
  destruct (JsMap.has storeName (stores m)).
  - apply keepsDefaults_onStore, keepsDefault_set.
  - apply keepsDefaults_ret.
Qed.

Lemma keepsDefaults_emit remote e : keepsDefaults (emit remote e).
Proof.
  intros m. rewrite emit_run. destruct (routed e m); [|reflexivity].
  destruct e; unfold route.
  - apply (keepsDefaults_detach (@keepsDefaults_refresh remote None)).
  - apply keepsDefaults_set.
  - apply keepsDefaults_set.
  - apply (keepsDefaults_detach (@keepsDefaults_refresh remote _)).
Qed.

Lemma keepsDefaults_refresh_start storeName :
  keepsDefaults (refresh_start storeName).
Proof.
  assert (keepsDefaults
    (bind read (fun m : StateManager =>
       match JsMap.keys (stores m) with
       | [] => ret None
       | k :: rest =>
           bind (onStore k Store.refresh_begin)
             (fun _ => ret (Some (mkPending k rest)))
       end))) as Hall.
  { apply keepsDefaults_bind; [apply keepsDefaults_read|]. intros m.
    destruct (JsMap.keys (stores m)) as [|k rest]; [apply keepsDefaults_ret|].
    apply keepsDefaults_bind;
      [apply keepsDefaults_onStore, keepsDefault_begin|].
    intros _. apply keepsDefaults_ret. }
  unfold refresh_start. destruct storeName as [name|];
    [destruct (negb (name =? "")%string)|]; try exact Hall.
  apply keepsDefaults_bind; [apply keepsDefaults_attempt|]. intros _.
  apply keepsDefaults_bind; [apply keepsDefaults_onStore, keepsDefault_begin|].
  intros _. apply keepsDefaults_ret.
Qed.

Lemma keepsDefaults_refresh_resume p answer :
  keepsDefaults (refresh_resume p answer).
Proof.
  unfold refresh_resume.
  apply keepsDefaults_bind; [apply keepsDefaults_onStore, keepsDefault_settle|].
  intros _. destruct (remaining p) as [|k rest]; [apply keepsDefaults_ret|].
  apply keepsDefaults_bind; [apply keepsDefaults_onStore, keepsDefault_begin|].
  intros _. apply keepsDefaults_ret.
Qed.

Lemma perform_defaults (op : Op) (m : StateManager) :
  defaults (stores (perform op m)) = defaults (stores m).
Proof.
  destruct op; simpl; try reflexivity.
  - apply keepsDefaults_refresh.
  - apply keepsDefaults_refresh_start.
  - apply keepsDefaults_refresh_resume.
  - apply keepsDefaults_reset.
  - apply keepsDefaults_destroy.
  - apply keepsDefaults_emit.
Qed.

Lemma performAll_defaults (ops : list Op) (m : StateManager) :
  defaults (stores (performAll ops m)) = defaults (stores m).
Proof.
  unfold performAll. revert m.
  induction ops as [|op ops IH]; intros m; simpl; [reflexivity|].
  rewrite IH. apply perform_defaults.
Qed.

(** What [reset()] leaves is a function of the defaults alone. *)
Lemma reset_from_defaults (entries : JsMap.t Store.t) :
  map resetEntry entries =
  map (fun d => (fst d, Store.mk (snd d) (snd d))) (defaults entries).
Proof.
  unfold defaults. rewrite map_map. apply map_ext. intros [k s]. reflexivity.
Qed.

(** X10: no operation and no event ever changes the default of a store:
    after any sequence of public calls, resumed refreshes and client
    events, the names, their order and the defaults are those before it.
    So [reset()] brings back the same values whatever happened in
    between, and on a manager built by the constructor those are the
    values the constructor installed. *)
Theorem defaults_never_change (ops : list Op) :
  (forall m,
     defaults (stores (performAll ops m)) = defaults (stores m) /\
     stores (final (reset (performAll ops m))) = stores (final (reset m))) /\
  (forall types,
     stores (final (reset (performAll ops (constructor types))))
       = stores (constructor types)).
Proof.
  assert (forall m,
            stores (final (reset (performAll ops m))) = stores (final (reset m)))
    as Hreset.
  { intros m. rewrite !reset_run. cbn [final stores].
    rewrite !reset_from_defaults, performAll_defaults. reflexivity. }
  split.
  - intros m. split; [apply performAll_defaults | apply Hreset].
  - intros types. rewrite Hreset, reset_run. cbn [final stores].
    apply pristine_reset, constructor_pristine.
Qed.

(* ===================================================================== *)
(** ** After [destroy] *)
(* ===================================================================== *)

Lemma get_resetEntry (entries : JsMap.t Store.t) (k : string) :
  JsMap.get k (map resetEntry entries) =
  match JsMap.get k entries with
  | Some s => Some (Store.mk (Store.default s) (Store.default s))
  | None => None
  end.
Proof.
  induction entries as [|[k' s'] rest IH]; [reflexivity|].
  cbn [map JsMap.get]. unfold resetEntry at 1. cbn [fst snd].
  destruct (String.eqb_spec k' k) as [->|_]; [reflexivity | exact IH].
Qed.

(** X11: what a single [destroy()] leaves: every store that was
    registered is still registered and reads its default (or the
    sub-field of it), [reset()] was called once on every store in
    registry order, and [destroy$] is stopped; when it was not stopped
    before, it has emitted once and completed once. *)
Theorem destroy_leaves_defaults (m : StateManager) (nameOrType : Ident)
    (key : option string) (store : Store.t) :
  getStore nameOrType m = inr store ->
  hasStore nameOrType (final (destroy m)) = true /\
  get nameOrType key (final (destroy m))
    = inr (project key (Store.default store)) /\
  resetted (trace (destroy m)) = JsMap.keys (stores m) /\
  isStopped (destroy_ (final (destroy m))) = true /\
  (isStopped (destroy_ m) = false ->
   destroy_ (final (destroy m)) = mkSubject true true /\
   signals (trace (destroy m)) = [Fired; Closed]).
Proof.
  intros Hstore.
  assert (hasStore nameOrType m = true) as Hreg.
  { destruct (hasStore nameOrType m) eqn:H; [reflexivity|].
    rewrite (getStore_missing _ _ H) in Hstore. discriminate. }
  destruct (getStore_found _ _ Hreg) as [s [Hs Hget]].
  assert (s = store) as -> by congruence.
  destruct (destroy_run m) as (_ & Hf & Ht).
  assert (JsMap.get (resolve nameOrType) (stores (final (destroy m)))
          = Some (Store.mk (Store.default store) (Store.default store))) as Hget'.
  { rewrite Hf. cbn [stores]. rewrite get_resetEntry, Hget. reflexivity. }
  split; [apply has_get; eexists; exact Hget'|].
  split; [erewrite get_read by exact Hget'; reflexivity|].
  split.
  { rewrite Ht. unfold resetted. rewrite calls_app.
    fold (resetted (flat_map resetTrace (stores m))).
    rewrite resetted_resetTrace.
    destruct (isStopped (destroy_ m)); cbn [calls flat_map app];
      apply app_nil_r. }
  split; [rewrite Hf; apply stopped_stopped|].
  intros Hopen. rewrite Hf, Ht, Hopen. unfold stopped. rewrite Hopen.
  split; [reflexivity|].
  unfold signals. rewrite filter_app.
  fold (signals (flat_map resetTrace (stores m))).
  destruct (requests_resetTrace (stores m)) as (_ & _ & _ & _ & Hsig).
  rewrite Hsig. reflexivity.
Qed.

Lemma destroy_leaves_defaults_witness :
  get (ByName "volume") None
    (final (destroy (final (refresh Sample.online None Sample.player))))
  = inr (JNum 50).
Proof.
  destruct (@destroy_leaves_defaults
              (final (refresh Sample.online None Sample.player))
              (ByName "volume") None (Store.mk (JNum 50) (JNum 80)))
    as (_ & Hget & _); [reflexivity|].
  exact Hget.
Defined.

(** The methods other than [destroy] read and write the map alone. *)
Lemma refresh_reads_stores (remote : Remote) (storeName : option string)
    (entries : JsMap.t Store.t) (d d' : Subject) :
  result (refresh remote storeName (mkStateManager entries d))
    = result (refresh remote storeName (mkStateManager entries d')) /\
  trace (refresh remote storeName (mkStateManager entries d))
    = trace (refresh remote storeName (mkStateManager entries d')) /\
  stores (final (refresh remote storeName (mkStateManager entries d)))
    = stores (final (refresh remote storeName (mkStateManager entries d'))) /\
  destroy_ (final (refresh remote storeName (mkStateManager entries d))) = d.
Proof.
  assert (forall sn, sn = None \/ sn = Some ""%string ->
    result (refresh remote sn (mkStateManager entries d))
      = result (refresh remote sn (mkStateManager entries d')) /\
    trace (refresh remote sn (mkStateManager entries d))
      = trace (refresh remote sn (mkStateManager entries d')) /\
    stores (final (refresh remote sn (mkStateManager entries d)))
      = stores (final (refresh remote sn (mkStateManager entries d'))) /\
    destroy_ (final (refresh remote sn (mkStateManager entries d))) = d) as Hall.
  { intros sn [->| ->]; repeat split. }
  destruct storeName as [name|]; [|apply Hall; left; reflexivity].
  destruct (String.eqb_spec name "") as [->|Hne];
    [apply Hall; right; reflexivity|].
  destruct (JsMap.get name entries) as [s|] eqn:Hs.
  - rewrite (@refresh_named_run remote name (mkStateManager entries d) s Hne Hs).
    rewrite (@refresh_named_run remote name (mkStateManager entries d') s Hne Hs).
    repeat split.
  - rewrite !refresh_unregistered; try assumption; repeat split;
      apply has_false_get; exact Hs.
Qed.

(** X12: [destroy$] is consulted by the event subscriptions and by
    nothing else.  After [destroy()] the public methods behave as on a
    manager that was merely reset: [hasStore], [getStore], [get] and
    [select] answer the same, and [refresh] and [reset] return the same,
    do the same calls and pulls, and leave the same stores. *)
Theorem public_methods_ignore_destroy (remote : Remote)
    (storeName : option string) (nameOrType : Ident) (key : option string)
    (m : StateManager) :
  hasStore nameOrType (final (destroy m))
    = hasStore nameOrType (final (reset m)) /\
  getStore nameOrType (final (destroy m))
    = getStore nameOrType (final (reset m)) /\
  get nameOrType key (final (destroy m))
    = get nameOrType key (final (reset m)) /\
  select nameOrType key (final (destroy m))
    = select nameOrType key (final (reset m)) /\
  result (refresh remote storeName (final (destroy m)))
    = result (refresh remote storeName (final (reset m))) /\
  trace (refresh remote storeName (final (destroy m)))
    = trace (refresh remote storeName (final (reset m))) /\
  stores (final (refresh remote storeName (final (destroy m))))
    = stores (final (refresh remote storeName (final (reset m)))) /\
  result (reset (final (destroy m))) = result (reset (final (reset m))) /\
  trace (reset (final (destroy m))) = trace (reset (final (reset m))) /\
  stores (final (reset (final (destroy m))))
    = stores (final (reset (final (reset m)))).
Proof.
  destruct (destroy_run m) as (_ & Hf & _).
  rewrite Hf, (reset_run m). cbn [final].
  destruct (@refresh_reads_stores remote storeName (map resetEntry (stores m))
              (stopped (destroy_ m)) (destroy_ m)) as (Hr & Ht & Hs & _).
  rewrite !reset_run. cbn [result final trace stores].
  repeat split; assumption.
Qed.

(** A refresh still awaiting its pull is not tied to [destroy$]. *)
Lemma onStore_begin_final (k : string) (m : StateManager) :
  final (onStore k Store.refresh_begin m) = m.
Proof.
  destruct (JsMap.get k (stores m)) as [s|] eqn:Hs.
  - erewrite onStore_begin_run by exact Hs. reflexivity.
  - unfold onStore. rewrite Hs. reflexivity.
Qed.

(** X13: [destroy()] does not cancel a [refresh] that is suspended on a
    pull.  When the answer arrives after [destroy()], the awaited store
    takes the value pulled, over the default [destroy()] had restored,
    and a bulk [refresh] goes on to call [refresh()] on the next store
    of the registry and suspends on its pull. *)
Theorem suspended_refresh_outlives_destroy (m : StateManager)
    (name next : string) (rest : list string) (key : option string)
    (v : JsValue) :
  hasStore (ByName name) m = true ->
  hasStore (ByName next) m = true ->
  get (ByName name) key
    (final (refresh_resume (mkPending name []) (Pulled v) (final (destroy m))))
    = inr (project key v) /\
  get (ByName name) key
    (final (refresh_resume (mkPending name (next :: rest)) (Pulled v)
              (final (destroy m))))
    = inr (project key v) /\
  result (refresh_resume (mkPending name (next :: rest)) (Pulled v)
            (final (destroy m)))
    = inr (Some (mkPending next rest)) /\
  refreshed (trace (refresh_resume (mkPending name (next :: rest)) (Pulled v)
                      (final (destroy m))))
    = [next].
Proof.
  intros Hreg Hnext.
  assert (forall k, hasStore (ByName k) m = true ->
            exists s, JsMap.get k (stores (final (destroy m))) = Some s) as Hafter.
  { intros k Hk. apply has_get. apply has_keys.
    rewrite keepsKeys_destroy. apply has_keys. exact Hk. }
  destruct (Hafter _ Hreg) as [s Hs].
  assert (onStore name (Store.refresh_settle (Pulled v)) (final (destroy m))
          = mkOutcome (inr tt)
              (mkStateManager
                 (JsMap.set name (Store.mk (Store.default s) v)
                    (stores (final (destroy m))))
                 (destroy_ (final (destroy m))))
              [At name (Response (Pulled v)); At name (Emit v)]) as Hsettle.
  { erewrite onStore_run by exact Hs. rewrite Store_settle_pulled. reflexivity. }
  assert (JsMap.get name
            (JsMap.set name (Store.mk (Store.default s) v)
               (stores (final (destroy m))))
          = Some (Store.mk (Store.default s) v)) as Hget
    by apply get_set_same.
  assert (exists s', JsMap.get next
            (JsMap.set name (Store.mk (Store.default s) v)
               (stores (final (destroy m)))) = Some s') as [s' Hs'].
  { apply has_get. apply has_keys. rewrite keys_set_present.
    - apply has_keys. apply has_get. apply Hafter. exact Hnext.
    - apply has_get. eauto. }
  unfold refresh_resume. cbn [awaiting remaining].
  split.
  { erewrite bind_run by exact Hsettle. unfold ret. cbn [final].
    apply (@get_read (ByName name) key _ (Store.mk (Store.default s) v)).
    exact Hget. }
  erewrite bind_run by exact Hsettle.
  erewrite (@bind_run _ _ (onStore next _))
    by (apply (@onStore_begin_run next _ s'); exact Hs').
  unfold ret. cbn [result final trace app].
  split; [|split; reflexivity].
  apply (@get_read (ByName name) key _ (Store.mk (Store.default s) v)).
  exact Hget.
Qed.

Lemma suspended_refresh_outlives_destroy_witness :
  get (ByName "volume") None
    (final (refresh_resume (mkPending "volume" ["playback"]) (Pulled (JNum 80))
              (final (destroy Sample.player))))
    = inr (JNum 80) /\
  refreshed (trace (refresh_resume (mkPending "volume" ["playback"])
                      (Pulled (JNum 80)) (final (destroy Sample.player))))
    = ["playback"].
Proof.
  destruct (@suspended_refresh_outlives_destroy Sample.player
              "volume" "playback" [] None (JNum 80))
    as (_ & Hget & _ & Hnext); [reflexivity | reflexivity |].
  split; [exact Hget | exact Hnext].
Defined.

(* ===================================================================== *)
(** ** State deltas compose *)
(* ===================================================================== *)

Lemma set_set_same {V} (m : JsMap.t V) (k : string) (a b : V) :
  JsMap.set k a (JsMap.set k b m) = JsMap.set k a m.
Proof.
  induction m as [|[k' v'] rest IH]; simpl.
  - rewrite String.eqb_refl. reflexivity.
  - destruct (String.eqb_spec k' k) as [->|Hne]; simpl.
    + rewrite String.eqb_refl. reflexivity.
    + destruct (String.eqb_spec k' k); [congruence|]. rewrite IH. reflexivity.
Qed.

Lemma set_set_other {V} (m : JsMap.t V) (k k' : string) (a b : V) :
  k <> k' ->
  JsMap.has k m = true ->
  JsMap.has k' m = true ->
  JsMap.set k a (JsMap.set k' b m) = JsMap.set k' b (JsMap.set k a m).
Proof.
  intros Hne. unfold JsMap.has.
  induction m as [|[k0 v0] rest IH]; simpl; [discriminate|].
  destruct (String.eqb k0 k) eqn:E1, (String.eqb k0 k') eqn:E2; simpl;
    rewrite ?E1, ?E2; simpl; rewrite ?E1, ?E2.
  - apply String.eqb_eq in E1, E2. congruence.
  - reflexivity.
  - reflexivity.
  - intros H1 H2. rewrite (IH H1 H2). reflexivity.
Qed.

Lemma emit_state_run (remote : Remote) (name : string) (v : JsValue)
    (m : StateManager) (s : Store.t) :
  hasEmitted (destroy_ m) = false ->
  JsMap.get name (stores m) = Some s ->
  emit remote (EventState (StateUpdate.mk name v)) m =
  mkOutcome (inr tt)
    (mkStateManager
       (JsMap.set name (Store.mk (Store.default s) v) (stores m))
       (destroy_ m))
    [At name (Called (MSet v)); At name (Emit v)].
Proof.
  intros Hactive Hs. rewrite emit_run. unfold routed.
  cbn [evtName StateUpdate.name].
  assert (hasStore (ByName name) m = true) as Hreg by (apply has_get; eauto).
  rewrite Hactive, Hreg. cbn [negb andb]. unfold route.
  cbn [StateUpdate.name StateUpdate.state].
  apply set_registered. exact Hs.
Qed.

(** X14: state deltas compose as writes to independent cells.  Two
    deltas for the same store leave what the second alone leaves (the
    last write wins), and two deltas for different registered stores
    leave the same state in either order. *)
Theorem state_deltas_compose (remote : Remote) (m : StateManager)
    (name other : string) (v v' w : JsValue) :
  hasEmitted (destroy_ m) = false ->
  hasStore (ByName name) m = true ->
  hasStore (ByName other) m = true ->
  name <> other ->
  final (emit remote (EventState (StateUpdate.mk name v'))
           (final (emit remote (EventState (StateUpdate.mk name v)) m)))
    = final (emit remote (EventState (StateUpdate.mk name v')) m) /\
  final (emit remote (EventState (StateUpdate.mk other w))
           (final (emit remote (EventState (StateUpdate.mk name v)) m)))
    = final (emit remote (EventState (StateUpdate.mk name v))
               (final (emit remote (EventState (StateUpdate.mk other w)) m))).
Proof.
  intros Hactive Hreg Hother Hne.
  destruct (proj1 (has_get _ _) Hreg) as [s Hs]. cbn [resolve] in Hs.
  destruct (proj1 (has_get _ _) Hother) as [t Ht]. cbn [resolve] in Ht.
  rewrite (@emit_state_run remote name v m s Hactive Hs).
  rewrite (@emit_state_run remote name v' m s Hactive Hs).
  rewrite (@emit_state_run remote other w m t Hactive Ht).
  cbn [final].
  split.
  - erewrite emit_state_run;
      [| exact Hactive | cbn [stores]; apply get_set_same].
    cbn [final stores destroy_ Store.default]. rewrite set_set_same. reflexivity.
  - erewrite (@emit_state_run remote other w);
      [| exact Hactive
       | cbn [stores]; rewrite get_set_other by exact Hne; exact Ht].
    erewrite (@emit_state_run remote name v);
      [| exact Hactive
       | cbn [stores]; rewrite get_set_other by congruence; exact Hs].
    cbn [final stores destroy_]. f_equal.
    apply set_set_other; [congruence | exact Hother | exact Hreg].
Qed.

Lemma state_deltas_compose_witness :
  final (emit Sample.online (EventState (StateUpdate.mk "volume" (JNum 30)))
           (final (emit Sample.online
                     (EventState (StateUpdate.mk "volume" (JNum 80)))
                     Sample.player)))
  = final (emit Sample.online (EventState (StateUpdate.mk "volume" (JNum 30)))
             Sample.player).
Proof.
  destruct (@state_deltas_compose Sample.online Sample.player
              "volume" "playback" (JNum 80) (JNum 30) (JStr "paused"))
    as [Hlast _]; [reflexivity | reflexivity | reflexivity | discriminate |].
  exact Hlast.
Defined.

(* ===================================================================== *)
(** ** Only [destroy] touches [destroy$] *)
(* ===================================================================== *)

Lemma keepsSignal_ret {A} (a : A) : keepsSignal (ret a).
Proof. intros m. reflexivity. Qed.

Lemma keepsSignal_read : keepsSignal read.
Proof. intros m. reflexivity. Qed.

Lemma keepsSignal_attempt {A} (f : StateManager -> Exn + A) :
  keepsSignal (attempt f).
Proof. intros m. unfold attempt. destruct (f m); reflexivity. Qed.

Lemma keepsSignal_bind {A B} (c : Call A) (k : A -> Call B) :
  keepsSignal c -> (forall a, keepsSignal (k a)) -> keepsSignal (bind c k).
Proof.
  intros Hc Hk m. unfold bind. destruct (result (c m)) as [e|a]; cbn [final].
  - apply Hc.
  - rewrite Hk. apply Hc.
Qed.

Lemma keepsSignal_onStore k body : keepsSignal (onStore k body).
Proof.
  intros m. unfold onStore. destruct (JsMap.get k (stores m)); reflexivity.
Qed.

Lemma keepsSignal_onStores {A} (c : M Effect (JsMap.t Store.t) A) :
  keepsSignal (onStores c).
Proof. intros m. reflexivity. Qed.

Lemma keepsSignal_detach (c : Call unit) : keepsSignal c -> keepsSignal (detach c).
Proof. intros H m. unfold detach. cbn [final]. apply H. Qed.

Lemma keepsSignal_refresh remote storeName :
  keepsSignal (refresh remote storeName).
Proof.
  unfold refresh. destruct storeName as [name|];
    [destruct (negb (name =? "")%string)|]; try apply keepsSignal_onStores.
  apply keepsSignal_bind; [apply keepsSignal_attempt|].
  intros _. apply keepsSignal_onStore.
Qed.

Lemma keepsSignal_set storeName value : keepsSignal (set storeName value).
Proof.
  unfold set. apply keepsSignal_bind; [apply keepsSignal_read|]. intros m.
  destruct (JsMap.has storeName (stores m));
    [apply keepsSignal_onStore | apply keepsSignal_ret].
Qed.

Lemma keepsSignal_emit remote e : keepsSignal (emit remote e).
Proof.
  intros m. rewrite emit_run. destruct (routed e m); [|reflexivity].
  destruct e; unfold route.
  - apply (keepsSignal_detach (@keepsSignal_refresh remote None)).
  - apply keepsSignal_set.
  - apply keepsSignal_set.
  - apply (keepsSignal_detach (@keepsSignal_refresh remote _)).
Qed.

Lemma keepsSignal_refresh_start storeName : keepsSignal (refresh_start storeName).
Proof.
  assert (keepsSignal
    (bind read (fun m : StateManager =>
       match JsMap.keys (stores m) with
       | [] => ret None
       | k :: rest =>
           bind (onStore k Store.refresh_begin)
             (fun _ => ret (Some (mkPending k rest)))
       end))) as Hall.
  { apply keepsSignal_bind; [apply keepsSignal_read|]. intros m.
    destruct (JsMap.keys (stores m)) as [|k rest]; [apply keepsSignal_ret|].
    apply keepsSignal_bind; [apply keepsSignal_onStore|].
    intros _. apply keepsSignal_ret. }
  unfold refresh_start. destruct storeName as [name|];
    [destruct (negb (name =? "")%string)|]; try exact Hall.
  apply keepsSignal_bind; [apply keepsSignal_attempt|]. intros _.
  apply keepsSignal_bind; [apply keepsSignal_onStore|].
  intros _. apply keepsSignal_ret.
Qed.

Lemma keepsSignal_refresh_resume p answer :
  keepsSignal (refresh_resume p answer).
Proof.
  unfold refresh_resume. apply keepsSignal_bind; [apply keepsSignal_onStore|].
  intros _. destruct (remaining p) as [|k rest]; [apply keepsSignal_ret|].
  apply keepsSignal_bind; [apply keepsSignal_onStore|].
  intros _. apply keepsSignal_ret.
Qed.

Lemma perform_signal (op : Op) (m : StateManager) :
  destroy_ (perform op m) =
  if isDestroy op then stopped (destroy_ m) else destroy_ m.
Proof.
  destruct op; cbn [perform isDestroy]; try reflexivity.
  - apply keepsSignal_refresh.
  - apply keepsSignal_refresh_start.
  - apply keepsSignal_refresh_resume.
  - destruct (destroy_run m) as (_ & Hf & _). rewrite Hf. reflexivity.
  - apply keepsSignal_emit.
Qed.

Lemma stopped_keeps_emitted (s : Subject) :
  hasEmitted s = true -> hasEmitted (stopped s) = true.
Proof. unfold stopped. destruct s as [e [|]]; simpl; auto. Qed.

(** X15: [destroy$] is written by [destroy()] and by nothing else.  As
    long as [destroy()] is not called, no public call, no resumed
    refresh and no event changes it, so event routing stays on; once it
    has emitted, nothing makes it forget: every later event of the
    client is dropped with no effect, whatever happened in between. *)
Theorem only_destroy_ends_routing (ops : list Op) (m : StateManager) :
  (existsb isDestroy ops = false ->
   destroy_ (performAll ops m) = destroy_ m) /\
  (hasEmitted (destroy_ m) = true ->
   hasEmitted (destroy_ (performAll ops m)) = true /\
   forall remote e,
     emit remote e (performAll ops m)
       = mkOutcome (inr tt) (performAll ops m) []).
Proof.
  split.
  - unfold performAll. revert m.
    induction ops as [|op ops IH]; intros m; cbn [existsb fold_left];
      [reflexivity|].
    intros H. apply orb_false_iff in H. destruct H as [Hop Hops].
    rewrite (IH _ Hops), perform_signal, Hop. reflexivity.
  - intros Hfired.
    assert (hasEmitted (destroy_ (performAll ops m)) = true) as H.
    { unfold performAll. revert m Hfired.
      induction ops as [|op ops IH]; intros m Hfired; cbn [fold_left];
        [exact Hfired|].
      apply IH. rewrite perform_signal.
      destruct (isDestroy op);
        [apply stopped_keeps_emitted; exact Hfired | exact Hfired]. }
    split; [exact H|].
    intros remote e. rewrite emit_run. unfold routed. rewrite H. reflexivity.
Qed.

Lemma only_destroy_ends_routing_witness :
  destroy_ (performAll [OpRefresh Sample.online None; OpReset] Sample.player)
    = destroy_ Sample.player /\
  emit Sample.online Connect
    (performAll [OpRefresh Sample.online None; OpReset]
       (final (destroy Sample.player)))
  = mkOutcome (inr tt)
      (performAll [OpRefresh Sample.online None; OpReset]
         (final (destroy Sample.player))) [].
Proof.
  split.
  - apply (proj1 (only_destroy_ends_routing
                    [OpRefresh Sample.online None; OpReset] Sample.player)).
    reflexivity.
  - apply (proj2 (only_destroy_ends_routing
                    [OpRefresh Sample.online None; OpReset]
                    (final (destroy Sample.player)))).
    reflexivity.
Defined.

(* ===================================================================== *)
(** ** No rollback *)
(* ===================================================================== *)

Lemma forValues_stops_at (remote : Remote) (before after : JsMap.t Store.t)
    (k : string) (s : Store.t) (e : Exn) :
  (forall k', In k' (JsMap.keys before) -> succeeds remote k') ->
  remote k = Rejected e ->
  result (forValues (fun k => Store.refresh (remote k))
            (before ++ (k, s) :: after)) = inl e /\
  final (forValues (fun k => Store.refresh (remote k))
           (before ++ (k, s) :: after))
    = map (pulled remote) before ++ (k, s) :: after /\
  refreshed (trace (forValues (fun k => Store.refresh (remote k))
                      (before ++ (k, s) :: after)))
    = JsMap.keys before ++ [k].
Proof.
  intros Hall Hk. induction before as [|[k0 s0] rest IH]; cbn [app].
  - erewrite forValues_rejected by exact Hk. repeat split.
  - destruct (Hall k0 (or_introl eq_refl)) as [v Hv].
    erewrite forValues_pulled by exact Hv. cbn [result final trace].
    destruct IH as (Hr & Hf & Ht); [intros k' Hk'; apply Hall; right; exact Hk'|].
    split; [exact Hr|]. split.
    + rewrite Hf. cbn [map app]. f_equal.
      unfold pulled. cbn [fst snd]. rewrite Hv. reflexivity.
    + unfold refreshed in *. rewrite calls_app, Ht. reflexivity.
Qed.

(** X16: [refresh()] does not roll back.  When the pull of a store is
    rejected after the pulls of the stores in front of it were answered,
    [refresh()] rejects with that reason, the stores in front keep the
    answers they pulled, and the failing store and those behind it are
    as they were. *)
Theorem refresh_keeps_partial_progress (remote : Remote) (m : StateManager)
    (before after : JsMap.t Store.t) (k : string) (s : Store.t) (e : Exn) :
  stores m = before ++ (k, s) :: after ->
  (forall k', In k' (JsMap.keys before) -> succeeds remote k') ->
  remote k = Rejected e ->
  result (refresh remote None m) = inl e /\
  stores (final (refresh remote None m))
    = map (pulled remote) before ++ (k, s) :: after /\
  refreshed (trace (refresh remote None m)) = JsMap.keys before ++ [k].
Proof.
  intros Hm Hall Hk.
  destruct (@forValues_stops_at remote before after k s e Hall Hk)
    as (Hr & Hf & Ht).
  unfold refresh, onStores. cbn [result final trace stores].
  rewrite Hm. repeat split; assumption.
Qed.

Lemma refresh_keeps_partial_progress_witness :
  result (refresh flaky None Sample.player) = inl (RemoteFailure "timeout") /\
  stores (final (refresh flaky None Sample.player))
    = [("volume", Store.mk (JNum 50) (JNum 80));
       ("playback", Store.mk (JStr "stopped") (JStr "stopped"))].
Proof.
  destruct (@refresh_keeps_partial_progress flaky Sample.player
              [("volume", Store.mk (JNum 50) (JNum 50))] []
              "playback" (Store.mk (JStr "stopped") (JStr "stopped"))
              (RemoteFailure "timeout"))
    as (Hr & Hs & _); [reflexivity | | reflexivity |].
  - intros k' [<-|[]]. exists (JNum 80). reflexivity.
  - split; [exact Hr | exact Hs].
Defined.

(* ===================================================================== *)
(** ** Change streams are per store *)
(* ===================================================================== *)

(** X17: the stream [select] returns for a store carries the changes of
    that store and of no other.  A routed state delta hands its state
    (or the sub-field selected) to the subscribers of the store it
    names, whether they asked by name or by type, and nothing to the
    subscribers of any other store. *)
Theorem change_stream_is_per_store (remote : Remote) (m : StateManager)
    (nameOrType : Ident) (key : option string) (obs : Observable)
    (name : string) (v : JsValue) :
  hasEmitted (destroy_ m) = false ->
  hasStore (ByName name) m = true ->
  select nameOrType key m = inr obs ->
  received obs m (trace (emit remote (EventState (StateUpdate.mk name v)) m))
  = if String.eqb (resolve nameOrType) name then [project key v] else [].
Proof.
  intros Hactive Hreg Hsel.
  destruct (select_run _ _ _ Hsel) as [-> _].
  destruct (proj1 (has_get _ _) Hreg) as [s Hs]. cbn [resolve] in Hs.
  rewrite (@emit_state_run remote name v m s Hactive Hs). cbn [trace].
  unfold received, delivered. cbn [flat_map source pipe forallb app].
  rewrite andb_true_r, app_nil_r.
  destruct (String.eqb (resolve nameOrType) name); reflexivity.
Qed.

Lemma change_stream_is_per_store_witness :
  received Sample.volumeChanges Sample.player
    (trace (emit Sample.online
              (EventState (StateUpdate.mk "playback" (JStr "paused")))
              Sample.player)) = [] /\
  received Sample.volumeChanges Sample.player
    (trace (emit Sample.online
              (EventState (StateUpdate.mk "volume" (JNum 80)))
              Sample.player)) = [JNum 80].
Proof.
  split.
  - apply (@change_stream_is_per_store Sample.online Sample.player
             (ByName "volume") None Sample.volumeChanges "playback"
             (JStr "paused")); reflexivity.
  - apply (@change_stream_is_per_store Sample.online Sample.player
             (ByType Sample.volume) None Sample.volumeChanges "volume"
             (JNum 80)); reflexivity.
Defined.

(* ===================================================================== *)
(** ** What [destroy] tears down *)
(* ===================================================================== *)


